(** * bin-parser: the 12-bit value tally of [bin-parser.c]

    A shallow embedding of [src/bin-parser.c] and the properties of its
    unpacking routine, its frequency table, its ring of recent values and
    its two reports.

    Conventions of the embedding:
    - C integers are [Z]; a narrowing store writes its wrap-around out
      ([uint8], [uint16], [size_t]);
    - the two global arrays are lists read and written by index; an index
      outside the array is undefined behaviour in C and is the fault
      [OutOfBounds] here; a failing [assert] is the fault [AssertFailed];
    - the input file is the list of its bytes; the output file is the list
      of the [fprintf] calls that reached it, and every operation on it is
      logged;
    - whether an [fopen] or an [fprintf] on the output succeeds is decided
      by an oracle, the environment [Env];
    - the path arguments are taken to be non-null, so the [assert]s on them
      are left out. *)

From Stdlib Require Import ZArith Lia ZifyBool Ascii String.
From Stdlib.Strings Require Import Byte.
From stdpp Require Import base list sorting strings pretty.

Open Scope Z_scope.

(** ** Faults and results *)

Inductive fault : Type :=
| AssertFailed
| OutOfBounds (i : Z)
| OutOfFuel.

Inductive result (A : Type) : Type :=
| Ok (a : A)
| Fault (f : fault).

Arguments Ok {A} a.
Arguments Fault {A} f.

#[export] Instance result_ret : MRet result := @Ok.
#[export] Instance result_bind : MBind result := λ A B k r,
  match r with
  | Ok a => k a
  | Fault f => Fault f
  end.

(** [assert(c)] *)
Definition assert (c : bool) : result unit :=
  if c then Ok tt else Fault AssertFailed.

(** ** Macros and constants (lines 29-57) *)

Definition BITS_PER_VALUE : Z := 12.
Definition MAX_VALUE : Z := 0xFFF.
Definition VALUE_ARRAY_SIZE : Z := MAX_VALUE + 1.
Definition OUTPUT_COUNT : Z := 32.
Definition SUCCESS : Z := 0.
Definition FAILURE : Z := -1.
Definition NUM_ARGS : Z := 2.

Definition UPPER_12BITS_MASK (x : Z) : Z :=
  Z.shiftr (Z.land x (Z.shiftl MAX_VALUE BITS_PER_VALUE)) BITS_PER_VALUE.

Definition LOWER_12BITS_MASK (x : Z) : Z :=
  Z.land x MAX_VALUE.

(** Stores into [uint8_t], [uint16_t] and [size_t] (64 bits) objects. *)
Definition uint8 (x : Z) : Z := x mod 2 ^ 8.
Definition uint16 (x : Z) : Z := x mod 2 ^ 16.
Definition size_t (x : Z) : Z := x mod 2 ^ 64.

(** ** The global state (lines 59-63) *)

Record globals : Type := Globals {
  valueCount : list Z;      (* uint8_t  valueCount[VALUE_ARRAY_SIZE] *)
  lastValues : list Z;      (* uint16_t lastValues[OUTPUT_COUNT] *)
  lastValuesIdx : Z;        (* size_t *)
  lastValuesCount : Z       (* size_t *)
}.

Definition initial : globals :=
  {| valueCount := replicate (Z.to_nat VALUE_ARRAY_SIZE) 0;
     lastValues := replicate (Z.to_nat OUTPUT_COUNT) 0;
     lastValuesIdx := 0;
     lastValuesCount := 0 |}.

(** [a[i]] as an rvalue. *)
Definition array_get (a : list Z) (i : Z) : result Z :=
  if 0 <=? i then
    match a !! Z.to_nat i with
    | Some x => Ok x
    | None => Fault (OutOfBounds i)
    end
  else Fault (OutOfBounds i).

(** [a[i] = x]. *)
Definition array_set (a : list Z) (i : Z) (x : Z) : result (list Z) :=
  if (0 <=? i) && (i <? Z.of_nat (length a)) then Ok (<[Z.to_nat i := x]> a)
  else Fault (OutOfBounds i).

(** ** [insertValue] (lines 65-73) *)

Definition insertValue (value : Z) (g : globals) : result globals :=
  c ← array_get (valueCount g) value ;
   vc ← array_set (valueCount g) value (uint8 (c + 1)) ;
   lv ← array_set (lastValues g) (lastValuesIdx g) value ;
   let idx := size_t (lastValuesIdx g + 1) in
   let idx := idx mod OUTPUT_COUNT in
   let cnt := if lastValuesCount g <? OUTPUT_COUNT
              then size_t (lastValuesCount g + 1)
              else lastValuesCount g in
   Ok {| valueCount := vc; lastValues := lv;
         lastValuesIdx := idx; lastValuesCount := cnt |}.

(** ** [get24bits] (lines 75-84)

    [fread] moves up to three bytes of the file into [buffer] and returns
    how many it moved.  [buffer] is an uninitialised local: the slots
    [fread] did not fill hold whatever was there, the triple [stale].  The
    function returns [retVal], the value stored through [buf], and the rest
    of the file. *)

Definition byteZ (b : byte) : Z := Z.of_N (Byte.to_N b).

Definition pack (b0 b1 b2 : byte) : Z :=
  Z.lor (Z.lor (Z.shiftl (byteZ b0) 16) (Z.shiftl (byteZ b1) 8)) (byteZ b2).

Definition get24bits (stale : byte * byte * byte) (inputFile : list byte)
  : Z * Z * list byte :=
  match inputFile with
  | [] => (0, pack stale.1.1 stale.1.2 stale.2, [])
  | [b0] => (1, pack b0 stale.1.2 stale.2, [])
  | [b0; b1] => (2, pack b0 b1 stale.2, [])
  | b0 :: b1 :: b2 :: rest => (3, pack b0 b1 b2, rest)
  end.

(** ** [parseInput] (lines 86-133)

    [parseLoop] is the [while(1)] loop; [k] counts the calls of
    [get24bits], so that every call sees stale bytes of its own.  The loop
    reads at least one byte per round, so a fuel of one more than the
    length of the file is never used up ([parseLoop_decode] and
    [parseLoop_trailing] below). *)

Definition stale_bytes : Type := nat → byte * byte * byte.

Definition ingest12 (v : Z) (st : Z * globals) : result (Z * globals) :=
  let '(max, g) := st in
  _ ← assert ((v <=? MAX_VALUE) && (v >=? 0)) ;
   g ← insertValue v g ;
   Ok (if v >? max then v else max, g).

Fixpoint parseLoop (stale : stale_bytes) (fuel k : nat) (inputFile : list byte)
    (max : Z) (g : globals) : result (Z * globals) :=
  match fuel with
  | O => Fault OutOfFuel
  | S fuel =>
    let '(retVal, value, inputFile) := get24bits (stale k) inputFile in
    if retVal =? 0 then Ok (max, g)
    else if retVal =? 1 then Ok (FAILURE, g)
    else
      st ← (if retVal >=? 2
             then ingest12 (uint16 (UPPER_12BITS_MASK value)) (max, g)
             else Ok (max, g)) ;
       '(max, g) ← (if retVal >=? 3
             then ingest12 (uint16 (LOWER_12BITS_MASK value)) st
             else Ok st) ;
       parseLoop stale fuel (S k) inputFile max g
  end.

(** [input] is the content of the file named by the argument, [None] when
    [fopen] cannot open it. *)
Definition parseInput (stale : stale_bytes) (input : option (list byte))
    (g : globals) : result (Z * globals) :=
  match input with
  | None => Ok (FAILURE, g)
  | Some inputFile => parseLoop stale (S (length inputFile)) 0 inputFile 0 g
  end.

(** ** The output sink and the console

    [file] is the output file: one entry per [fprintf] that reached it, the
    format and its one integer argument ([text] renders it).  [log] lists
    every operation on the output, oldest first.  [stdout] is what [printf]
    wrote. *)

Inductive op : Type :=
| Fopen (mode : string) (ok : bool)
| Fprintf (fmt : string) (arg : Z) (ok : bool)
| Fclose.

Record world : Type := World {
  file : list (string * Z);
  log : list op;
  stdout : list string
}.

Definition fresh : world := {| file := []; log := []; stdout := [] |}.

(** The oracle: given what happened on the output so far, does the next
    [fopen] (with this mode) or [fprintf] (of this line) succeed? *)
Record Env : Type := {
  fopen_ok : list op → string → bool;
  fprintf_ok : list op → string → Z → bool
}.

Definition healthy : Env :=
  {| fopen_ok := λ _ _, true; fprintf_ok := λ _ _ _, true |}.

Definition io (A : Type) : Type := world → result A * world.

#[export] Instance io_ret : MRet io := λ A a w, (Ok a, w).
#[export] Instance io_bind : MBind io := λ A B k m w,
  match m w with
  | (Ok a, w) => k a w
  | (Fault f, w) => (Fault f, w)
  end.

(** A computation on the globals alone, run inside [io]. *)
Definition lift {A : Type} (r : result A) : io A := λ w, (r, w).

Definition CR : string := String "013"%char EmptyString.
Definition LF : string := String "010"%char EmptyString.
Definition CRLF : string := CR +:+ LF.

(** The text [printf] produces for a format with one [%d]. *)
Fixpoint sprintf (fmt : string) (d : Z) : string :=
  match fmt with
  | String "%"%char (String "d"%char rest) => pretty d +:+ rest
  | String c rest => String c (sprintf rest d)
  | EmptyString => EmptyString
  end.

(** The characters of a list of writes, and of the output file. *)
Definition render (l : list (string * Z)) : string :=
  foldr (λ p acc, sprintf p.1 p.2 +:+ acc) EmptyString l.

Definition text (w : world) : string := render (file w).

(** [fopen(output, mode)]: is the handle non-null?  Mode ["w"] empties the
    file. *)
Definition fopen (e : Env) (mode : string) : io bool := λ w,
  let ok := fopen_ok e (log w) mode in
  (Ok ok,
   {| file := if ok && String.eqb mode "w" then [] else file w;
      log := log w ++ [Fopen mode ok];
      stdout := stdout w |}).

(** [fprintf(outputFile, fmt, arg)]: the number of characters written, or a
    negative number when the write fails. *)
Definition fprintf (e : Env) (fmt : string) (arg : Z) : io Z := λ w,
  let ok := fprintf_ok e (log w) fmt arg in
  (Ok (if ok then Z.of_nat (String.length (sprintf fmt arg)) else -1),
   {| file := if ok then file w ++ [(fmt, arg)] else file w;
      log := log w ++ [Fprintf fmt arg ok];
      stdout := stdout w |}).

Definition fclose : io unit := λ w,
  (Ok tt, {| file := file w; log := log w ++ [Fclose]; stdout := stdout w |}).

Definition printf (s : string) : io unit := λ w,
  (Ok tt, {| file := file w; log := log w; stdout := stdout w ++ [s] |}).

Definition SORTED_HEADER : string := "--Sorted Max %d Values--" +:+ CRLF.
Definition LAST_HEADER : string := "--Last %d Values--" +:+ CRLF.
Definition VALUE_LINE : string := "%d" +:+ CRLF.

(** ** [getCount] and [getStart] (lines 135-161)

    Both run the loop [for(i=max; i>=0 && count<OUTPUT_COUNT; i--)].
    [scanDown n count] is that loop at [i = n - 1]; it returns the final
    [(i, count)]. *)

Fixpoint scanDown (g : globals) (n : nat) (count : Z) : result (Z * Z) :=
  match n with
  | O => Ok (-1, count)
  | S n' =>
    let i := Z.of_nat n' in
    if count <? OUTPUT_COUNT then
      c ← array_get (valueCount g) i;
      scanDown g n' (if c >? 0 then count + c else count)
    else Ok (i, count)
  end.

Definition getCount (g : globals) (max : Z) : result Z :=
  _ ← assert ((max <=? MAX_VALUE) && (max >=? 0));
  '(_, count) ← scanDown g (Z.to_nat (max + 1)) 0;
  Ok count.

Definition getStart (g : globals) (max : Z) : result Z :=
  _ ← assert ((max <=? MAX_VALUE) && (max >=? 0));
  '(i, _) ← scanDown g (Z.to_nat (max + 1)) 0;
  Ok (i + 1).

(** ** [generateSortedOutput] (lines 163-198) *)

(** The loop [for(j=0; j<thisCount; j++)], [n] rounds left; [FAILURE] is
    the [goto cleanup]. *)
Fixpoint printCopies (e : Env) (i : Z) (n : nat) : io Z :=
  match n with
  | O => mret SUCCESS
  | S n' =>
    r ← fprintf e VALUE_LINE i;
    if r <? SUCCESS then mret FAILURE else printCopies e i n'
  end.

(** The loop [for(i=start; count>0; i++, count--)], entered with [count]
    rounds left; [continue] also runs [i++, count--]. *)
Fixpoint sortedLoop (e : Env) (g : globals) (start : Z) (count : nat) (i : Z)
    : io Z :=
  match count with
  | O => mret SUCCESS
  | S count' =>
    c ← lift (array_get (valueCount g) i);
    if c <=? 0 then sortedLoop e g start count' (i + 1)
    else
      let thisCount := c in
      let thisCount :=
        if (i =? start) && (Z.of_nat count >? OUTPUT_COUNT)
        then thisCount - (Z.of_nat count - OUTPUT_COUNT)
        else thisCount in
      r ← printCopies e i (Z.to_nat thisCount);
      if r <? SUCCESS then mret FAILURE
      else sortedLoop e g start count' (i + 1)
  end.

Definition generateSortedOutput (e : Env) (g : globals) (max : Z) : io Z :=
  _ ← lift (assert ((max <=? MAX_VALUE) && (max >=? 0)));
  outputFile ← fopen e "w";
  if negb outputFile then mret FAILURE
  else
    _ ← fprintf e SORTED_HEADER OUTPUT_COUNT;
    count ← lift (getCount g max);
    start ← lift (getStart g max);
    retVal ← sortedLoop e g start (Z.to_nat count) start;
    _ ← fclose;
    mret retVal.

(** ** [generateLastOutput] (lines 200-229) *)

(** [(lastValuesIdx - lastValuesCount) % OUTPUT_COUNT], computed in
    [size_t]; the result is below 32 and fits the [int] it is stored in. *)
Definition startIdx (g : globals) : Z :=
  size_t (lastValuesIdx g - lastValuesCount g) mod OUTPUT_COUNT.

(** The loop [for(i=0; i<lastValuesCount; i++)], [n] rounds left. *)
Fixpoint lastLoop (e : Env) (g : globals) (n : nat) (idx : Z) : io Z :=
  match n with
  | O => mret SUCCESS
  | S n' =>
    value ← lift (array_get (lastValues g) idx);
    let idx := idx + 1 in
    _ ← lift (assert ((value <=? MAX_VALUE) && (value >=? 0)));
    r ← fprintf e VALUE_LINE value;
    if r <? SUCCESS then mret FAILURE
    else
      let idx := idx mod OUTPUT_COUNT in
      lastLoop e g n' idx
  end.

Definition generateLastOutput (e : Env) (g : globals) : io Z :=
  outputFile ← fopen e "a";
  if negb outputFile then mret FAILURE
  else
    _ ← fprintf e LAST_HEADER OUTPUT_COUNT;
    retVal ← lastLoop e g (Z.to_nat (lastValuesCount g)) (startIdx g);
    _ ← fclose;
    mret retVal.

(** ** [main] (lines 231-266)

    [argc] and [argv0] are the argument count and the program name;
    [input] is the content of the file named by [argv[1]] ([None] when it
    cannot be opened); the output file named by [argv[2]] is the one of the
    [world].  The globals start zeroed. *)

Definition printUsage (argv0 : string) : io unit :=
  printf ("usage: " +:+ argv0 +:+ " <in-file> <out-file>" +:+ LF).

Definition INPUT_ERROR : string :=
  "ERROR: Input file either doesn't exist or is invalid." +:+ CRLF.
Definition OUTPUT_ERROR : string :=
  "ERROR: Failed to write to output file." +:+ CRLF.

Definition main (stale : stale_bytes) (e : Env) (argc : Z) (argv0 : string)
    (input : option (list byte)) : io Z :=
  if negb (argc =? NUM_ARGS + 1) then
    _ ← printUsage argv0; mret FAILURE
  else
    '(max, g) ← lift (parseInput stale input initial);
    if max <? 0 then
      _ ← printf INPUT_ERROR; mret FAILURE
    else
      r ← generateSortedOutput e g max;
      if r <? SUCCESS then
        _ ← printf OUTPUT_ERROR; mret FAILURE
      else
        r ← generateLastOutput e g;
        if r <? SUCCESS then
          _ ← printf OUTPUT_ERROR; mret FAILURE
        else mret SUCCESS.

(** * Vocabulary of the properties *)

(** The state invariant: the arrays have their declared sizes, the ring
    cursor and count are in range, and the ring holds 12-bit values. *)
Record wf (g : globals) : Prop := {
  wf_valueCount : length (valueCount g) = Z.to_nat VALUE_ARRAY_SIZE;
  wf_lastValues : length (lastValues g) = Z.to_nat OUTPUT_COUNT;
  wf_idx : 0 ≤ lastValuesIdx g < OUTPUT_COUNT;
  wf_count : 0 ≤ lastValuesCount g ≤ OUTPUT_COUNT;
  wf_values : Forall (λ v, 0 ≤ v ≤ MAX_VALUE) (lastValues g);
  wf_counts : Forall (λ c, 0 ≤ c < 2 ^ 8) (valueCount g)
}.

(** Ingesting a stream of values: one [insertValue] per value, in order. *)
Fixpoint ingest (vs : list Z) (g : globals) : result globals :=
  match vs with
  | [] => Ok g
  | v :: vs => g ← insertValue v g; ingest vs g
  end.

(** The state [insertValue] leaves when the bucket of [value] held [c]. *)
Definition inserted (value c : Z) (g : globals) : globals :=
  {| valueCount := <[Z.to_nat value := uint8 (c + 1)]> (valueCount g);
     lastValues := <[Z.to_nat (lastValuesIdx g) := value]> (lastValues g);
     lastValuesIdx := (lastValuesIdx g + 1) mod OUTPUT_COUNT;
     lastValuesCount := Z.min (lastValuesCount g + 1) OUTPUT_COUNT |}.

(** The values a byte stream unpacks to: upper then lower for each complete
    group, the upper one alone for a last group of two bytes. *)
Fixpoint decode (bs : list byte) : list Z :=
  match bs with
  | b0 :: b1 :: b2 :: rest =>
    uint16 (UPPER_12BITS_MASK (pack b0 b1 b2))
    :: uint16 (LOWER_12BITS_MASK (pack b0 b1 b2)) :: decode rest
  | [b0; b1] => [uint16 (UPPER_12BITS_MASK (pack b0 b1 x00))]
  | _ => []
  end.

(** The running maximum of [parseInput]. *)
Definition maxSeen (max : Z) (vs : list Z) : Z :=
  foldl (λ m v, if v >? m then v else m) max vs.

(** The value lines a report is made of. *)
Definition value_lines (vs : list Z) : list (string * Z) :=
  map (λ v, (VALUE_LINE, v)) vs.

(** The two reports as a healthy sink receives them, each on a fresh
    output. *)
Definition sortedLines (g : globals) (max : Z) : list (string * Z) :=
  file (generateSortedOutput healthy g max fresh).2.

Definition lastLines (g : globals) : list (string * Z) :=
  file (generateLastOutput healthy g fresh).2.

Definition sumZ (l : list Z) : Z := foldr Z.add 0 l.

(** Concrete inputs. *)
Definition nostale : stale_bytes := λ _, (x00, x00, x00).

(** A sink on which the very first write after the first [fopen], the
    header of the sorted report, fails, and every other call succeeds. *)
Definition header_fails : Env :=
  {| fopen_ok := λ _ _, true;
     fprintf_ok := λ l _ _, match l with [Fopen _ _] => false | _ => true end |}.


(** Forty ascending values, and the state after ingesting them: the ring
    has wrapped, the cursor is 8 and the count 32. *)
Definition forty : list Z := seqZ 1 40.

Definition after_forty : globals :=
  match ingest forty initial with
  | Ok g => g
  | Fault _ => initial
  end.

(** The values the output loop of [generateSortedOutput] prints on a sink
    that takes every write: the loop [sortedLoop] with the writes left out.
    A read outside the table ends the list. *)
Fixpoint emitted (g : globals) (start : Z) (count : nat) (i : Z) : list Z :=
  match count with
  | O => []
  | S count' =>
    match array_get (valueCount g) i with
    | Ok c =>
      (if c <=? 0 then []
       else replicate
              (Z.to_nat (if (i =? start) && (Z.of_nat count >? OUTPUT_COUNT)
                         then c - (Z.of_nat count - OUTPUT_COUNT)
                         else c)) i)
      ++ emitted g start count' (i + 1)
    | Fault _ => []
    end
  end.

(** The world after the value lines [vs] went through. *)
Definition wrote (w : world) (vs : list Z) : world :=
  {| file := file w ++ value_lines vs;
     log := log w ++ map (λ v, Fprintf VALUE_LINE v true) vs;
     stdout := stdout w |}.


(** How often the value [v] occurs in a stream. *)
Definition occurrences (v : Z) (vs : list Z) : Z :=
  Z.of_nat (length (filter (λ x, x = v) vs)).

(** The number of values in a file of [n] bytes, as the specification
    counts them. *)
Definition total_value_count (n : Z) : Z :=
  2 * (n / 3) + (if n mod 3 =? 2 then 1 else 0).

(** The invariant of the frequency table as the specification words it:
    whenever ingestion succeeds, the counts sum to the number of values. *)
Definition sum_claim (stale : stale_bytes) (bs : list byte) : Prop :=
  ∀ max g,
    parseInput stale (Some bs) initial = Ok (max, g) → 0 ≤ max →
    sumZ (valueCount g) = total_value_count (Z.of_nat (length bs)).

(** ** The states of the sink, and the table as a list *)

(** The sink after a value line has been refused. *)
Definition failed (w : world) (v : Z) : world :=
  {| file := file w;
     log := log w ++ [Fprintf VALUE_LINE v false];
     stdout := stdout w |}.

(** The values the output loop of [generateSortedOutput] prints, as far
    as it gets. *)
Definition sortedValues (g : globals) (max : Z) : list Z :=
  match getCount g max, getStart g max with
  | Ok count, Ok start => emitted g start (Z.to_nat count) start
  | _, _ => []
  end.

(** The ring read from its oldest entry, as lines 213-224 do. *)
Definition ringValues (g : globals) : list Z :=
  (λ t : nat,
     default 0 (lastValues g
                !! Z.to_nat ((startIdx g + Z.of_nat t) mod OUTPUT_COUNT)))
  <$> seq 0 (Z.to_nat (lastValuesCount g)).

(** The sink after [fclose]. *)
Definition closed (w : world) : world :=
  {| file := file w; log := log w ++ [Fclose]; stdout := stdout w |}.

(** The sink after a successful [fopen] and the header line, written or
    not. *)
Definition opened (w : world) (mode fmt : string) (h : bool) : world :=
  {| file := (if String.eqb mode "w" then [] else file w)
             ++ (if h then [(fmt, OUTPUT_COUNT)] else []);
     log := log w ++ [Fopen mode true; Fprintf fmt OUTPUT_COUNT h];
     stdout := stdout w |}.

(** The sink after a refused [fopen]. *)
Definition refused (w : world) (mode : string) : world :=
  {| file := file w; log := log w ++ [Fopen mode false]; stdout := stdout w |}.

(** The console after one message. *)
Definition printed (w : world) (s : string) : world :=
  {| file := file w; log := log w; stdout := stdout w ++ [s] |}.



(** * Properties *)

(** ** The two masks *)

Lemma UPPER_12BITS_MASK_eq (x : Z) :
  UPPER_12BITS_MASK x = (x / 2 ^ 12) mod 2 ^ 12.
Proof.
  unfold UPPER_12BITS_MASK, BITS_PER_VALUE, MAX_VALUE.
  rewrite Z.shiftr_land, Z.shiftr_div_pow2 by lia.
  change (Z.shiftr (Z.shiftl 0xFFF 12) 12) with (Z.ones 12).
  now rewrite Z.land_ones by lia.
Qed.

Lemma LOWER_12BITS_MASK_eq (x : Z) : LOWER_12BITS_MASK x = x mod 2 ^ 12.
Proof.
  unfold LOWER_12BITS_MASK, MAX_VALUE.
  change 0xFFF with (Z.ones 12). now rewrite Z.land_ones by lia.
Qed.

Lemma upper_range (x : Z) : 0 ≤ uint16 (UPPER_12BITS_MASK x) ≤ MAX_VALUE.
Proof.
  rewrite UPPER_12BITS_MASK_eq. unfold uint16, MAX_VALUE.
  pose proof (Z.mod_pos_bound (x / 2 ^ 12) (2 ^ 12)).
  rewrite Z.mod_small; lia.
Qed.

Lemma lower_range (x : Z) : 0 ≤ uint16 (LOWER_12BITS_MASK x) ≤ MAX_VALUE.
Proof.
  rewrite LOWER_12BITS_MASK_eq. unfold uint16, MAX_VALUE.
  pose proof (Z.mod_pos_bound x (2 ^ 12)).
  rewrite Z.mod_small; lia.
Qed.

Lemma byteZ_range (b : byte) : 0 ≤ byteZ b < 256.
Proof.
  unfold byteZ. pose proof (Byte.to_N_bounded b). lia.
Qed.

(** With two bytes read, the upper value does not depend on the stale
    third byte of the buffer. *)
Lemma upper_stale (b0 b1 s s' : byte) :
  UPPER_12BITS_MASK (pack b0 b1 s) = UPPER_12BITS_MASK (pack b0 b1 s').
Proof.
  rewrite !UPPER_12BITS_MASK_eq. f_equal. unfold pack.
  rewrite <- !Z.shiftr_div_pow2, !Z.shiftr_lor by lia.
  f_equal. rewrite !Z.shiftr_div_pow2 by lia.
  pose proof (byteZ_range s). pose proof (byteZ_range s').
  rewrite !Z.div_small; lia.
Qed.

(** ** The state invariant *)

Lemma wf_initial : wf initial.
Proof.
  split; cbn; rewrite ?length_replicate; try done.
  all: apply Forall_replicate; done.
Qed.

Lemma insertValue_inserted (g : globals) (v : Z) :
  wf g → 0 ≤ v ≤ MAX_VALUE →
  ∃ c, valueCount g !! Z.to_nat v = Some c ∧
       insertValue v g = Ok (inserted v c g).
Proof.
  intros [Hvc Hlv Hidx Hcnt _ _] Hv.
  unfold VALUE_ARRAY_SIZE, MAX_VALUE, OUTPUT_COUNT in *.
  destruct (lookup_lt_is_Some_2 (valueCount g) (Z.to_nat v)) as [c Hc];
    [lia|].
  exists c. split; [done|].
  unfold insertValue, array_get, array_set, inserted, size_t, OUTPUT_COUNT.
  rewrite Hc. cbn.
  repeat (case_match; try lia); cbn.
  all: rewrite !(Z.mod_small _ (2 ^ 64)) by lia.
  all: do 2 f_equal; lia.
Qed.

Lemma inserted_wf (g : globals) (v c : Z) :
  wf g → 0 ≤ v ≤ MAX_VALUE → wf (inserted v c g).
Proof.
  intros [Hvc Hlv Hidx Hcnt Hval Hcs] Hv. unfold OUTPUT_COUNT in *.
  split; cbn; rewrite ?length_insert; try done.
  - apply Z.mod_pos_bound. done.
  - unfold OUTPUT_COUNT. lia.
  - apply Forall_insert; done.
  - apply Forall_insert; [done|]. apply Z.mod_pos_bound. done.
Qed.

Lemma ingest_app (vs vs' : list Z) (g : globals) :
  ingest (vs ++ vs') g = (g' ← ingest vs g; ingest vs' g').
Proof.
  revert g. induction vs as [|v vs IH]; intros g; cbn; [done|].
  destruct (insertValue v g); cbn; [apply IH | done].
Qed.

Lemma ingest_wf (vs : list Z) (g : globals) :
  wf g → Forall (λ v, 0 ≤ v ≤ MAX_VALUE) vs →
  ∃ g', ingest vs g = Ok g' ∧ wf g'.
Proof.
  intros Hg Hvs. revert g Hg.
  induction Hvs as [|v vs Hv _ IH]; intros g Hg; cbn; [eauto|].
  destruct (insertValue_inserted g v Hg Hv) as (c & _ & ->). cbn.
  apply IH, inserted_wf; done.
Qed.

Lemma decode_range (bs : list byte) :
  Forall (λ v, 0 ≤ v ≤ MAX_VALUE) (decode bs).
Proof.
  induction bs as [bs IH] using (induction_ltof1 _ (@length byte)).
  unfold ltof in IH.
  destruct bs as [|b0 [|b1 [|b2 rest]]]; cbn [decode]; try done.
  - apply Forall_cons_2; [apply upper_range | done].
  - apply Forall_cons_2; [apply upper_range |].
    apply Forall_cons_2; [apply lower_range |].
    apply IH. cbn. lia.
Qed.

(** ** [parseInput] ingests the decoded stream *)

Lemma mod3_group (n : nat) : (S (S (S n)) mod 3 = n mod 3)%nat.
Proof.
  replace (S (S (S n))) with (n + 1 * 3)%nat by lia.
  apply Nat.Div0.mod_add.
Qed.

Lemma ingest12_insertValue (v max : Z) (g : globals) :
  0 ≤ v ≤ MAX_VALUE →
  ingest12 v (max, g) =
  (g' ← insertValue v g; Ok (if v >? max then v else max, g')).
Proof.
  intros Hv. unfold ingest12, assert.
  replace ((v <=? MAX_VALUE) && (v >=? 0)) with true by lia. done.
Qed.

Section Parse.

Context (stale : stale_bytes).

Lemma parseLoop_decode (fuel k : nat) (bs : list byte) (max : Z)
    (g : globals) :
  (length bs < fuel)%nat → (length bs mod 3 ≠ 1)%nat →
  parseLoop stale fuel k bs max g =
  (g' ← ingest (decode bs) g; Ok (maxSeen max (decode bs), g')).
Proof.
  revert k bs max g.
  induction fuel as [|fuel IH]; intros k bs max g Hlen Hmod; [lia|].
  destruct bs as [|b0 [|b1 [|b2 rest]]]; cbn [length] in *.
  - done.
  - done.
  - cbn -[ingest12 UPPER_12BITS_MASK].
    rewrite ingest12_insertValue by apply upper_range.
    rewrite (upper_stale b0 b1 _ x00).
    destruct (insertValue _ g) as [g'|f]; cbn -[UPPER_12BITS_MASK]; [|done].
    destruct fuel; [lia | done].
  - cbn -[ingest12 UPPER_12BITS_MASK LOWER_12BITS_MASK].
    rewrite ingest12_insertValue by apply upper_range.
    destruct (insertValue _ g) as [g1|f];
      cbn -[ingest12 UPPER_12BITS_MASK LOWER_12BITS_MASK]; [|done].
    rewrite ingest12_insertValue by apply lower_range.
    destruct (insertValue _ g1) as [g2|f];
      cbn -[ingest12 UPPER_12BITS_MASK LOWER_12BITS_MASK]; [|done].
    rewrite mod3_group in Hmod. apply IH; [lia | done].
Qed.

Lemma parseLoop_trailing (fuel k : nat) (bs : list byte) (max : Z)
    (g : globals) :
  (length bs < fuel)%nat → (length bs mod 3 = 1)%nat → wf g →
  ∃ g', parseLoop stale fuel k bs max g = Ok (FAILURE, g').
Proof.
  revert k bs max g.
  induction fuel as [|fuel IH]; intros k bs max g Hlen Hmod Hg; [lia|].
  destruct bs as [|b0 [|b1 [|b2 rest]]]; cbn [length] in *.
  - done.
  - eauto.
  - done.
  - cbn -[ingest12 UPPER_12BITS_MASK LOWER_12BITS_MASK].
    rewrite ingest12_insertValue by apply upper_range.
    destruct (insertValue_inserted g _ Hg (upper_range (pack b0 b1 b2)))
      as (c1 & _ & ->).
    cbn -[ingest12 UPPER_12BITS_MASK LOWER_12BITS_MASK].
    rewrite ingest12_insertValue by apply lower_range.
    pose proof (inserted_wf g _ c1 Hg (upper_range (pack b0 b1 b2))) as Hg1.
    destruct (insertValue_inserted _ _ Hg1 (lower_range (pack b0 b1 b2)))
      as (c2 & _ & ->).
    cbn -[ingest12 UPPER_12BITS_MASK LOWER_12BITS_MASK].
    rewrite mod3_group in Hmod. apply IH; [lia | done |].
    apply inserted_wf; [done | apply lower_range].
Qed.

Lemma parseInput_decode (bs : list byte) (g : globals) :
  (length bs mod 3 ≠ 1)%nat →
  parseInput stale (Some bs) g =
  (g' ← ingest (decode bs) g; Ok (maxSeen 0 (decode bs), g')).
Proof. intros Hmod. apply parseLoop_decode; [lia | done]. Qed.

End Parse.

Lemma length_decode (bs : list byte) :
  Z.of_nat (length (decode bs))
  = total_value_count (Z.of_nat (length bs)).
Proof.
  unfold total_value_count.
  induction bs as [bs IH] using (induction_ltof1 _ (@length byte)).
  unfold ltof in IH.
  destruct bs as [|b0 [|b1 [|b2 rest]]]; try done.
  cbn [decode length]. rewrite !Nat2Z.inj_succ, IH by (cbn; lia).
  replace (Z.succ (Z.succ (Z.succ (Z.of_nat (length rest)))))
    with (Z.of_nat (length rest) + 1 * 3) by lia.
  rewrite Z.div_add, Z.mod_add by lia. lia.
Qed.

(** ** A trailing single byte *)

(** C6: an input whose length is 1 modulo 3 makes [parseInput] return
    [FAILURE]; [main] then fails without touching the output: no [fopen],
    no write, the file and the log are as they were. *)
Theorem trailing_byte_fails (stale : stale_bytes) (e : Env) (argv0 : string)
    (bs : list byte) (w : world) :
  (length bs mod 3 = 1)%nat →
  (∃ g, parseInput stale (Some bs) initial = Ok (FAILURE, g)) ∧
  main stale e (NUM_ARGS + 1) argv0 (Some bs) w =
  (Ok FAILURE,
   {| file := file w; log := log w; stdout := stdout w ++ [INPUT_ERROR] |}).
Proof.
  intros Hmod.
  destruct (parseLoop_trailing stale (S (length bs)) 0 bs 0 initial)
    as [g Hg]; [lia | done | apply wf_initial |].
  split; [by exists g|].
  unfold main, parseInput. rewrite Z.eqb_refl. cbn [negb].
  unfold mbind at 1, io_bind at 1, lift at 1. rewrite Hg. done.
Qed.

(** The four bytes 0F FF 00 41: one group and a trailing byte. *)
Lemma trailing_byte_fails_witness :
  (length [x0f; xff; x00; x41] mod 3 = 1)%nat ∧
  main nostale healthy 3 "bin-parser" (Some [x0f; xff; x00; x41]) fresh =
  (Ok FAILURE, {| file := []; log := []; stdout := [INPUT_ERROR] |}).
Proof.
  split; [reflexivity|].
  apply (trailing_byte_fails nostale healthy "bin-parser"
           [x0f; xff; x00; x41] fresh).
  reflexivity.
Defined.

(** ** The empty input *)

(** C7: on the empty input ingestion returns a maximum of 0 and leaves the
    globals zeroed, the run succeeds, and the output holds the two header
    lines and nothing else: each report is header-only. *)
Theorem empty_input_headers_only (stale : stale_bytes) (argv0 : string) :
  parseInput stale (Some []) initial = Ok (0, initial) ∧
  sortedLines initial 0 = [(SORTED_HEADER, OUTPUT_COUNT)] ∧
  lastLines initial = [(LAST_HEADER, OUTPUT_COUNT)] ∧
  ∃ w, main stale healthy (NUM_ARGS + 1) argv0 (Some []) fresh
       = (Ok SUCCESS, w) ∧
       file w = [(SORTED_HEADER, OUTPUT_COUNT); (LAST_HEADER, OUTPUT_COUNT)] ∧
       text w = "--Sorted Max 32 Values--" +:+ CRLF +:+
                "--Last 32 Values--" +:+ CRLF.
Proof.
  split; [done|]. split; [vm_compute; reflexivity|].
  split; [vm_compute; reflexivity|].
  eexists. split; [vm_compute; reflexivity|].
  split; vm_compute; reflexivity.
Qed.

(** ** Concrete runs *)

Ltac run := repeat match goal with |- _ ∧ _ => split end;
            vm_compute; reflexivity.

(** C3 (the code on the two bytes AB CD): ingestion succeeds with the one
    value 2748 and the recency report shows the one line 2748, but the
    sorted report shows no value line at all: [getCount] is 1, [getStart]
    is 0, so the output loop visits bucket 0 alone and stops. *)
Theorem two_bytes_sorted_report_empty (stale : stale_bytes) :
  ∃ g, parseInput stale (Some [xab; xcd]) initial = Ok (2748, g) ∧
       ingest [2748] initial = Ok g ∧
       getCount g 2748 = Ok 1 ∧ getStart g 2748 = Ok 0 ∧
       sortedLines g 2748 = [(SORTED_HEADER, OUTPUT_COUNT)] ∧
       lastLines g = (LAST_HEADER, OUTPUT_COUNT) :: value_lines [2748] ∧
       render (value_lines [2748]) = "2748" +:+ CRLF.
Proof.
  rewrite parseInput_decode by done.
  eexists. split; [vm_compute; reflexivity | run].
Qed.




(** C9 (the code on 48 bytes FF): the 32 values 4095 fill bucket 4095;
    [getCount] is 32 and [getStart] is 4095, so after the first round the
    output loop reads [valueCount[4096]], one past the end of the table. *)
Theorem sorted_report_reads_past_table (stale : stale_bytes) :
  ∃ g, parseInput stale (Some (replicate 48 xff)) initial = Ok (4095, g) ∧
       getCount g 4095 = Ok 32 ∧ getStart g 4095 = Ok 4095 ∧
       length (valueCount g) = 4096%nat ∧
       (generateSortedOutput healthy g 4095 fresh).1
       = Fault (OutOfBounds 4096).
Proof.
  rewrite parseInput_decode by done.
  eexists. split; [vm_compute; reflexivity | run].
Qed.

(** What the program does on 384 bytes 00: 256 values are ingested, all
    of them 0; the 8-bit counter of bucket 0 wraps to 0, and the counts of
    the table sum to 0.  The sorted report then lists no value. *)
Lemma wrap_run (stale : stale_bytes) :
  ∃ g, parseInput stale (Some (replicate 384 x00)) initial = Ok (0, g) ∧
       decode (replicate 384 x00) = replicate 256 0 ∧
       total_value_count 384 = 256 ∧
       valueCount g !! 0%nat = Some 0 ∧
       sumZ (valueCount g) = 0 ∧
       sortedLines g 0 = [(SORTED_HEADER, OUTPUT_COUNT)].
Proof.
  rewrite parseInput_decode by done.
  eexists. split; [vm_compute; reflexivity | run].
Qed.

(** C4 (as stated, refuted): after the 384 bytes 00 are ingested, 256
    values, the counts of the table sum to 0. *)
Lemma sum_claim_fails : ¬ sum_claim nostale (replicate 384 x00).
Proof.
  intros Hclaim.
  destruct (wrap_run nostale) as (g & Hparse & _ & Htotal & _ & Hsum & _).
  specialize (Hclaim 0 g Hparse ltac:(lia)).
  rewrite Hsum in Hclaim. change (Z.of_nat (length (replicate 384 x00)))
    with 384 in Hclaim.
  rewrite Htotal in Hclaim. discriminate Hclaim.
Qed.

(** ** Write failures *)

(** When [generateSortedOutput] returns, either its [fopen] failed or the
    last operation on the sink is the [fclose]. *)
Lemma generateSortedOutput_closes (e : Env) (g : globals) (max r : Z)
    (w w1 : world) :
  generateSortedOutput e g max w = (Ok r, w1) →
  (r = FAILURE ∧ log w1 = log w ++ [Fopen "w" false]) ∨
  (∃ l, log w1 = l ++ [Fclose]).
Proof.
  unfold generateSortedOutput.
  unfold mbind at 1, io_bind at 1, lift at 1.
  destruct (assert _) as [[]|]; [|done].
  unfold mbind at 1, io_bind at 1. cbn [fopen].
  destruct (fopen_ok e (log w) "w"); cbn [negb].
  - unfold mbind at 1, io_bind at 1. cbn [fprintf].
    unfold mbind at 1, io_bind at 1, lift at 1.
    destruct (getCount g max) as [count|]; [|done].
    unfold mbind at 1, io_bind at 1, lift at 1.
    destruct (getStart g max) as [start|]; [|done].
    unfold mbind at 1, io_bind at 1.
    destruct (sortedLoop _ _ _ _ _ _) as [[retVal|] w']; [|done].
    cbn. intros [= <- <-]. right. by eexists.
  - cbn. intros [= <- <-]. by left.
Qed.

(** A failure returned by [generateSortedOutput] ends the run: [main]
    returns [FAILURE] and does nothing more on the sink. *)
Lemma sorted_failure_ends_run (stale : stale_bytes) (e : Env)
    (argv0 : string) (input : option (list byte)) (max r : Z) (g : globals)
    (w w1 : world) :
  parseInput stale input initial = Ok (max, g) → 0 ≤ max →
  generateSortedOutput e g max w = (Ok r, w1) → r < SUCCESS →
  main stale e (NUM_ARGS + 1) argv0 input w =
  (Ok FAILURE,
   {| file := file w1; log := log w1;
      stdout := stdout w1 ++ [OUTPUT_ERROR] |}).
Proof.
  intros Hparse Hmax Hsorted Hr. unfold main.
  rewrite Z.eqb_refl. cbn [negb].
  unfold mbind at 1, io_bind at 1, lift at 1. rewrite Hparse.
  replace (max <? 0) with false by lia.
  unfold mbind at 1, io_bind at 1. rewrite Hsorted.
  replace (r <? SUCCESS) with true by lia. reflexivity.
Qed.

(** C8 (the code when the header write fails): on the empty input and a
    sink whose first write fails, [generateSortedOutput] returns [SUCCESS];
    [main] goes on to open the sink again, writes the recency report and
    returns [SUCCESS]. *)
Theorem header_write_failure_unnoticed :
  generateSortedOutput header_fails initial 0 fresh =
  (Ok SUCCESS,
   {| file := [];
      log := [Fopen "w" true; Fprintf SORTED_HEADER 32 false; Fclose];
      stdout := [] |}) ∧
  main nostale header_fails (NUM_ARGS + 1) "bin-parser" (Some []) fresh =
  (Ok SUCCESS,
   {| file := [(LAST_HEADER, 32)];
      log := [Fopen "w" true; Fprintf SORTED_HEADER 32 false; Fclose;
              Fopen "a" true; Fprintf LAST_HEADER 32 true; Fclose];
      stdout := [] |}).
Proof. run. Qed.

(** ** The ring of recent values *)

Lemma size_t_mod (x : Z) : size_t x mod OUTPUT_COUNT = x mod OUTPUT_COUNT.
Proof.
  unfold size_t, OUTPUT_COUNT. apply Z.mod_mod_divide.
  exists (2 ^ 59). reflexivity.
Qed.

Lemma mod32_apart (j k : Z) :
  0 ≤ j < k → k - j < 32 → j mod 32 ≠ k mod 32.
Proof.
  intros Hjk Hd Heq.
  pose proof (Z.div_mod j 32). pose proof (Z.div_mod k 32). lia.
Qed.

Lemma insertValue_range (g g' : globals) (v : Z) :
  wf g → insertValue v g = Ok g' → 0 ≤ v ≤ MAX_VALUE.
Proof.
  intros Hg. unfold insertValue, array_get.
  destruct (Z.leb_spec 0 v) as [Hv|]; [|done].
  destruct (valueCount g !! Z.to_nat v) as [c|] eqn:Hc; [|done].
  intros _. apply lookup_lt_Some in Hc.
  rewrite (wf_valueCount g Hg) in Hc.
  unfold VALUE_ARRAY_SIZE, MAX_VALUE in *. lia.
Qed.

Lemma ingest_range (vs : list Z) (g g' : globals) :
  wf g → ingest vs g = Ok g' → Forall (λ v, 0 ≤ v ≤ MAX_VALUE) vs.
Proof.
  revert g. induction vs as [|v vs IH]; intros g Hg; cbn; [done|].
  destruct (insertValue v g) as [g1|] eqn:Hins; cbn; [|done].
  intros Hrest. pose proof (insertValue_range _ _ _ Hg Hins) as Hv.
  destruct (insertValue_inserted g v Hg Hv) as (c & _ & Heq).
  rewrite Heq in Hins. injection Hins as <-.
  apply Forall_cons_2; [done|].
  apply (IH (inserted v c g)); [by apply inserted_wf | done].
Qed.

(** After ingesting [vs], the cursor is the number of values modulo 32,
    the count is that number capped at 32, and slot [j mod 32] holds the
    [j]-th value for each of the last 32 positions [j]. *)
Lemma ingest_ring (vs : list Z) :
  Forall (λ v, 0 ≤ v ≤ MAX_VALUE) vs →
  ∃ g, ingest vs initial = Ok g ∧ wf g ∧
       lastValuesIdx g = Z.of_nat (length vs) mod OUTPUT_COUNT ∧
       lastValuesCount g = Z.min (Z.of_nat (length vs)) OUTPUT_COUNT ∧
       ∀ j, 0 ≤ j < Z.of_nat (length vs) →
            Z.of_nat (length vs) - OUTPUT_COUNT ≤ j →
            lastValues g !! Z.to_nat (j mod OUTPUT_COUNT) = vs !! Z.to_nat j.
Proof.
  induction vs as [|v vs IH] using rev_ind; intros Hvs.
  - exists initial. split; [done|]. split; [apply wf_initial|].
    split; [done|]. split; [done|]. cbn. lia.
  - apply Forall_app in Hvs as [Hvs Hv].
    apply Forall_cons_1 in Hv as [Hv _].
    destruct (IH Hvs) as (g & Hin & Hg & Hidx & Hcnt & Hring).
    destruct (insertValue_inserted g v Hg Hv) as (c & _ & Hins).
    exists (inserted v c g).
    rewrite ingest_app, Hin. cbn. rewrite Hins. cbn.
    split; [done|]. split; [by apply inserted_wf|].
    rewrite length_app, Nat2Z.inj_add. cbn [length].
    unfold OUTPUT_COUNT in *.
    split; [rewrite Hidx; apply Zplus_mod_idemp_l|].
    split; [lia|].
    intros j Hj Hlow. rewrite Hidx.
    pose proof (Z.mod_pos_bound (Z.of_nat (length vs)) 32) as Hb.
    destruct (decide (j = Z.of_nat (length vs))) as [->|Hne].
    + rewrite list_lookup_insert_eq
        by (rewrite (wf_lastValues g Hg); unfold OUTPUT_COUNT; lia).
      rewrite Nat2Z.id, lookup_app_r, Nat.sub_diag by lia. done.
    + rewrite list_lookup_insert_ne.
      * rewrite lookup_app_l by lia. apply Hring; lia.
      * intros Heq. pose proof (Z.mod_pos_bound j 32).
        apply (mod32_apart j (Z.of_nat (length vs))); lia.
Qed.

(** C10: in every state reached by ingesting values the cursor is in
    [0, 31], the count is the number of insertions capped at 32, and the
    start offset computed in [size_t] arithmetic is the mathematical
    [(lastValuesIdx - lastValuesCount) mod 32], a number in [0, 31], also
    when the count exceeds the cursor. *)
Theorem start_offset_exact (vs : list Z) (g : globals) :
  ingest vs initial = Ok g →
  0 ≤ lastValuesIdx g ≤ 31 ∧
  lastValuesCount g = Z.min (Z.of_nat (length vs)) 32 ∧
  startIdx g = (lastValuesIdx g - lastValuesCount g) mod 32 ∧
  0 ≤ startIdx g ≤ 31.
Proof.
  intros Hin.
  pose proof (ingest_range vs initial g wf_initial Hin) as Hvs.
  destruct (ingest_ring vs Hvs) as (g' & Hin' & Hg & Hidx & Hcnt & _).
  rewrite Hin in Hin'. injection Hin' as <-.
  unfold startIdx. rewrite size_t_mod. unfold OUTPUT_COUNT in *.
  pose proof (Z.mod_pos_bound (lastValuesIdx g - lastValuesCount g) 32).
  pose proof (wf_idx g Hg). unfold OUTPUT_COUNT in *. lia.
Qed.

(** After forty insertions the count, 32, exceeds the cursor, 8. *)
Lemma start_offset_exact_witness :
  ingest forty initial = Ok after_forty ∧
  lastValuesIdx after_forty < lastValuesCount after_forty ∧
  (0 ≤ lastValuesIdx after_forty ≤ 31 ∧
   lastValuesCount after_forty = Z.min (Z.of_nat (length forty)) 32 ∧
   startIdx after_forty
   = (lastValuesIdx after_forty - lastValuesCount after_forty) mod 32 ∧
   0 ≤ startIdx after_forty ≤ 31).
Proof.
  split; [vm_compute; reflexivity|].
  split; [vm_compute; reflexivity|].
  apply (start_offset_exact forty after_forty).
  vm_compute; reflexivity.
Defined.

(** ** The recency report *)

Lemma lastLoop_healthy (g : globals) (out : list Z) (idx : Z) (w : world) :
  0 ≤ idx < OUTPUT_COUNT →
  Forall (λ v, 0 ≤ v ≤ MAX_VALUE) out →
  (∀ (t : nat) v, out !! t = Some v →
     lastValues g !! Z.to_nat ((idx + Z.of_nat t) mod OUTPUT_COUNT) = Some v) →
  lastLoop healthy g (length out) idx w =
  (Ok SUCCESS,
   {| file := file w ++ value_lines out;
      log := log w ++ map (λ v, Fprintf VALUE_LINE v true) out;
      stdout := stdout w |}).
Proof.
  revert idx w. induction out as [|v out IH]; intros idx w Hidx Hout Hring.
  - cbn. rewrite !app_nil_r. by destruct w.
  - apply Forall_cons_1 in Hout as [Hv Hout].
    pose proof (Hring 0%nat v eq_refl) as H0.
    rewrite Z.add_0_r, Z.mod_small in H0 by done.
    cbn [length lastLoop].
    unfold mbind at 1, io_bind at 1, lift at 1, array_get.
    replace (0 <=? idx) with true by lia. rewrite H0.
    unfold mbind at 1, io_bind at 1, lift at 1, assert.
    replace ((v <=? MAX_VALUE) && (v >=? 0)) with true by lia.
    unfold mbind at 1, io_bind at 1. cbn [fprintf healthy fprintf_ok].
    replace (_ <? SUCCESS) with false by (unfold SUCCESS; lia).
    rewrite IH.
    + cbn [file log stdout value_lines map].
      by rewrite <- !app_assoc.
    + apply Z.mod_pos_bound. done.
    + done.
    + intros t x Hx. rewrite Zplus_mod_idemp_l.
      replace (idx + 1 + Z.of_nat t) with (idx + Z.of_nat (S t)) by lia.
      by apply Hring.
Qed.

Lemma generateLastOutput_healthy (g : globals) (out : list Z) (w : world) :
  Z.to_nat (lastValuesCount g) = length out →
  Forall (λ v, 0 ≤ v ≤ MAX_VALUE) out →
  (∀ (t : nat) v, out !! t = Some v →
     lastValues g !! Z.to_nat ((startIdx g + Z.of_nat t) mod OUTPUT_COUNT)
     = Some v) →
  generateLastOutput healthy g w =
  (Ok SUCCESS,
   {| file := file w ++ (LAST_HEADER, OUTPUT_COUNT) :: value_lines out;
      log := log w ++ Fopen "a" true
                   :: Fprintf LAST_HEADER OUTPUT_COUNT true
                   :: map (λ v, Fprintf VALUE_LINE v true) out ++ [Fclose];
      stdout := stdout w |}).
Proof.
  intros Hlen Hout Hring. unfold generateLastOutput.
  unfold mbind at 1, io_bind at 1. cbn [fopen healthy fopen_ok negb].
  unfold mbind at 1, io_bind at 1. cbn [fprintf healthy fprintf_ok].
  unfold mbind at 1, io_bind at 1. rewrite Hlen, lastLoop_healthy.
  - cbn. rewrite <- !app_assoc. cbn.
    unfold mbind, io_bind, fclose, mret, io_ret. cbn.
    by rewrite <- !app_assoc.
  - unfold startIdx. apply Z.mod_pos_bound. done.
  - done.
  - done.
Qed.

(** C5: after ingesting [K] values the count of the ring is [min K 32],
    and the recency report, on a healthy sink, succeeds and lists after its
    header exactly the last [min K 32] values of the stream, in arrival
    order. *)
Theorem recency_report_last_values (vs : list Z) :
  Forall (λ v, 0 ≤ v ≤ MAX_VALUE) vs →
  ∃ g, ingest vs initial = Ok g ∧
       lastValuesCount g = Z.min (Z.of_nat (length vs)) OUTPUT_COUNT ∧
       length (drop (length vs - 32) vs) = (length vs `min` 32)%nat ∧
       (generateLastOutput healthy g fresh).1 = Ok SUCCESS ∧
       lastLines g
       = (LAST_HEADER, OUTPUT_COUNT) :: value_lines (drop (length vs - 32) vs).
Proof.
  intros Hvs.
  destruct (ingest_ring vs Hvs) as (g & Hin & Hg & Hidx & Hcnt & Hring).
  exists g. split; [done|]. split; [done|].
  split; [rewrite length_drop; lia|].
  unfold lastLines.
  rewrite (generateLastOutput_healthy g (drop (length vs - 32) vs) fresh).
  - done.
  - rewrite Hcnt, length_drop. unfold OUTPUT_COUNT. lia.
  - by apply Forall_drop.
  - intros t v Ht. rewrite lookup_drop in Ht.
    pose proof (lookup_lt_Some _ _ _ Ht) as Hlt.
    rewrite <- Ht.
    replace (length vs - 32 + t)%nat
      with (Z.to_nat (Z.of_nat (length vs - 32 + t))) by lia.
    rewrite <- Hring by (unfold OUTPUT_COUNT; lia).
    do 2 f_equal. unfold startIdx. rewrite size_t_mod, Hidx, Hcnt.
    unfold OUTPUT_COUNT.
    rewrite Zplus_mod_idemp_l.
    replace (Z.of_nat (length vs) mod 32 - Z.of_nat (length vs) `min` 32
             + Z.of_nat t)
      with (Z.of_nat (length vs) mod 32
            + (Z.of_nat t - Z.of_nat (length vs) `min` 32)) by lia.
    rewrite Zplus_mod_idemp_l. f_equal. lia.
Qed.

(** Forty ascending values: the report lists the last 32 of them. *)
Lemma recency_report_last_values_witness :
  Forall (λ v, 0 ≤ v ≤ MAX_VALUE) forty ∧
  ∃ g, ingest forty initial = Ok g ∧
       lastValuesCount g = Z.min (Z.of_nat (length forty)) OUTPUT_COUNT ∧
       length (drop (length forty - 32) forty) = (length forty `min` 32)%nat ∧
       (generateLastOutput healthy g fresh).1 = Ok SUCCESS ∧
       lastLines g
       = (LAST_HEADER, OUTPUT_COUNT)
         :: value_lines (drop (length forty - 32) forty).
Proof.
  assert (H : Forall (λ v, 0 ≤ v ≤ MAX_VALUE) forty).
  { apply (bool_decide_unpack _). vm_compute. exact I. }
  split; [exact H|]. apply (recency_report_last_values forty H).
Defined.

(** ** The sorted report on a healthy sink *)

Lemma wrote_nil (w : world) : wrote w [] = w.
Proof. destruct w. unfold wrote. cbn. by rewrite !app_nil_r. Qed.

Lemma wrote_app (w : world) (vs vs' : list Z) :
  wrote (wrote w vs) vs' = wrote w (vs ++ vs').
Proof.
  unfold wrote, value_lines. cbn. by rewrite !map_app, !app_assoc.
Qed.

Lemma printCopies_healthy (i : Z) (n : nat) (w : world) :
  printCopies healthy i n w = (Ok SUCCESS, wrote w (replicate n i)).
Proof.
  revert w. induction n as [|n IH]; intros w.
  - by rewrite wrote_nil.
  - cbn [printCopies]. unfold mbind at 1, io_bind at 1.
    cbn [fprintf healthy fprintf_ok].
    replace (_ <? SUCCESS) with false by (unfold SUCCESS; lia).
    rewrite IH. f_equal. unfold wrote, value_lines. cbn.
    by rewrite <- !app_assoc.
Qed.

Lemma sortedLoop_healthy (g : globals) (start : Z) (count : nat) (i : Z)
    (w : world) :
  ∃ r, sortedLoop healthy g start count i w
       = (r, wrote w (emitted g start count i)).
Proof.
  revert i w. induction count as [|count IH]; intros i w.
  - exists (Ok SUCCESS). by rewrite wrote_nil.
  - cbn [sortedLoop emitted].
    unfold mbind at 1, io_bind at 1, lift at 1.
    destruct (array_get (valueCount g) i) as [c|f].
    + destruct (c <=? 0).
      * apply IH.
      * unfold mbind at 1, io_bind at 1. rewrite printCopies_healthy.
        replace (SUCCESS <? SUCCESS) with false by done.
        destruct (IH (i + 1) (wrote w (replicate (Z.to_nat
          (if (i =? start) && (Z.of_nat (S count) >? OUTPUT_COUNT)
           then c - (Z.of_nat (S count) - OUTPUT_COUNT) else c)) i)))
          as [r Hr].
        exists r. rewrite Hr. by rewrite wrote_app.
    + exists (Fault f). by rewrite wrote_nil.
Qed.

Lemma array_get_Ok (a : list Z) (i c : Z) :
  array_get a i = Ok c ↔ 0 ≤ i ∧ a !! Z.to_nat i = Some c.
Proof.
  unfold array_get. destruct (Z.leb_spec 0 i) as [Hi|Hi].
  - destruct (a !! Z.to_nat i) as [x|].
    + split; [by intros [= ->] | by intros [_ [= ->]]].
    + split; [done | by intros [_ ?]].
  - split; [done | lia].
Qed.






(** ** The backward scan of [getCount] and [getStart] *)

(** The scan ends at some [i] with some [count]: the count has grown by
    the buckets above [i]; once it is 32 or more the scan stops at once,
    and the last bucket it added is the one that took it there. *)
Lemma scanDown_spec (g : globals) (n : nat) (c0 : Z) :
  Forall (λ c, 0 ≤ c) (valueCount g) → (n ≤ length (valueCount g))%nat →
  ∃ i c, scanDown g n c0 = Ok (i, c) ∧ -1 ≤ i < Z.of_nat n ∧ c0 ≤ c ∧
         c + sumZ (drop n (valueCount g))
         = c0 + sumZ (drop (Z.to_nat (i + 1)) (valueCount g)) ∧
         (OUTPUT_COUNT ≤ c0 → i = Z.of_nat n - 1 ∧ c = c0) ∧
         (c0 < OUTPUT_COUNT →
          c < OUTPUT_COUNT ∨
          ∃ x, valueCount g !! Z.to_nat (i + 1) = Some x ∧
               c - x < OUTPUT_COUNT).
Proof.
  intros Hpos. revert c0. unfold OUTPUT_COUNT.
  induction n as [|n IH]; intros c0 Hn; cbn [scanDown].
  - exists (-1), c0. cbn. split_and!; try done; lia.
  - destruct (lookup_lt_is_Some_2 (valueCount g) n) as [x Hx]; [lia|].
    assert (0 ≤ x) as Hx0.
    { rewrite Forall_forall in Hpos.
      apply Hpos. by eapply list_elem_of_lookup_2. }
    pose proof (drop_S _ _ _ Hx) as Hdrop.
    unfold OUTPUT_COUNT. destruct (Z.ltb_spec c0 32) as [Hc0|Hc0].
    + unfold array_get. replace (0 <=? Z.of_nat n) with true by lia.
      rewrite Nat2Z.id, Hx. cbn [mbind result_bind].
      destruct (IH (if x >? 0 then c0 + x else c0)) as
        (i & c & Hscan & Hi & Hle & Hsum & Hstop & Hlast); [lia|].
      exists i, c. rewrite Hscan. rewrite Hdrop in Hsum.
      cbn [sumZ foldr] in Hsum.
      fold (sumZ (drop (S n) (valueCount g))) in Hsum.
      split_and!; try done; try (destruct (Z.gtb_spec x 0); lia).
      intros _. destruct (Z.ltb_spec (if x >? 0 then c0 + x else c0) 32)
          as [Hc1|Hc1].
      * by apply Hlast.
      * right. destruct (Hstop Hc1) as [-> ->].
        exists x. replace (Z.to_nat (Z.of_nat n - 1 + 1)) with n by lia.
        split; [done|]. destruct (Z.gtb_spec x 0); lia.
    + exists (Z.of_nat n), c0.
      replace (Z.to_nat (Z.of_nat n + 1)) with (S n) by lia.
      split_and!; try done; lia.
Qed.

Lemma scan_results (g : globals) (max : Z) :
  wf g → 0 ≤ max ≤ MAX_VALUE →
  ∃ start count,
    getCount g max = Ok count ∧ getStart g max = Ok start ∧
    0 ≤ start ≤ max + 1 ∧ 0 ≤ count ∧
    count + sumZ (drop (Z.to_nat (max + 1)) (valueCount g))
    = sumZ (drop (Z.to_nat start) (valueCount g)) ∧
    (count < OUTPUT_COUNT ∨
     ∃ x, valueCount g !! Z.to_nat start = Some x ∧ count - x < OUTPUT_COUNT).
Proof.
  intros Hg Hmax.
  assert (Forall (λ c, 0 ≤ c) (valueCount g)) as Hpos.
  { eapply Forall_impl; [apply (wf_counts g Hg)|]. cbn. lia. }
  destruct (scanDown_spec g (Z.to_nat (max + 1)) 0 Hpos)
    as (i & c & Hscan & Hi & Hle & Hsum & _ & Hlast).
  { rewrite (wf_valueCount g Hg).
    unfold VALUE_ARRAY_SIZE, MAX_VALUE in *. lia. }
  exists (i + 1), c. unfold getCount, getStart, assert.
  replace ((max <=? MAX_VALUE) && (max >=? 0)) with true by lia.
  cbn [mbind result_bind]. rewrite Hscan. cbn [mbind result_bind].
  split_and!; try done; try lia. by apply Hlast.
Qed.

(** ** What ingestion leaves in the frequency table *)

Lemma sumZ_insert (l : list Z) (i : nat) (x y : Z) :
  l !! i = Some x → sumZ (<[i:=y]> l) = sumZ l - x + y.
Proof.
  revert i. induction l as [|a l IH]; intros [|i] Hi; try done.
  - injection Hi as ->. cbn. lia.
  - cbn in Hi. specialize (IH i Hi). unfold sumZ in *. simpl. lia.
Qed.

Lemma sumZ_app (l l' : list Z) : sumZ (l ++ l') = sumZ l + sumZ l'.
Proof. unfold sumZ. induction l as [|a l IH]; cbn; lia. Qed.

Lemma sumZ_zeros (l : list Z) : Forall (λ c, c = 0) l → sumZ l = 0.
Proof. unfold sumZ. induction 1; cbn; lia. Qed.

(** A bucket that changed belongs to a value of the stream. *)
Lemma ingest_counted (vs : list Z) (g g' : globals) (j : nat) (c : Z) :
  wf g → ingest vs g = Ok g' →
  valueCount g' !! j = Some c → valueCount g !! j ≠ Some c →
  Z.of_nat j ∈ vs.
Proof.
  revert g. induction vs as [|v vs IH]; intros g Hg; cbn [ingest].
  - intros [= ->]. done.
  - destruct (insertValue v g) as [g1|] eqn:Hins; cbn; [|done].
    intros Hrest Hj Hne.
    pose proof (insertValue_range _ _ _ Hg Hins) as Hv.
    destruct (insertValue_inserted g v Hg Hv) as (cv & _ & Heq).
    rewrite Heq in Hins. injection Hins as <-.
    destruct (decide (Z.to_nat v = j)) as [<-|Hvj].
    + rewrite Z2Nat.id by lia. apply list_elem_of_here.
    + apply list_elem_of_further.
      apply (IH (inserted v cv g)); [by apply inserted_wf | done | done |].
      cbn. by rewrite list_lookup_insert_ne.
Qed.


Lemma maxSeen_ge (vs : list Z) (m : Z) : m ≤ maxSeen m vs.
Proof.
  revert m. induction vs as [|v vs IH]; intros m; cbn; [lia|].
  etrans; [|apply IH]. destruct (Z.gtb_spec v m); lia.
Qed.

Lemma maxSeen_bounds (vs : list Z) (m v : Z) : v ∈ vs → v ≤ maxSeen m vs.
Proof.
  revert m. induction vs as [|x vs IH]; intros m Hv.
  - by apply elem_of_nil in Hv.
  - apply elem_of_cons in Hv as [->|Hv]; cbn.
    + etrans; [|apply maxSeen_ge]. destruct (Z.gtb_spec x m); lia.
    + by apply IH.
Qed.

Lemma maxSeen_range (vs : list Z) (m : Z) :
  0 ≤ m ≤ MAX_VALUE → Forall (λ v, 0 ≤ v ≤ MAX_VALUE) vs →
  0 ≤ maxSeen m vs ≤ MAX_VALUE.
Proof.
  intros Hm Hvs. revert m Hm.
  induction Hvs as [|v vs Hv _ IH]; intros m Hm; cbn; [done|].
  apply IH. destruct (Z.gtb_spec v m); lia.
Qed.

Lemma occurrences_snoc (v x : Z) (vs : list Z) :
  occurrences v (vs ++ [x])
  = occurrences v vs + (if decide (x = v) then 1 else 0).
Proof.
  unfold occurrences. rewrite filter_app, length_app, Nat2Z.inj_add.
  f_equal. rewrite filter_cons, filter_nil. by destruct (decide (x = v)).
Qed.

Lemma occurrences_nonneg (v : Z) (vs : list Z) : 0 ≤ occurrences v vs.
Proof. unfold occurrences. lia. Qed.

(** As long as no value occurs more than 255 times, every bucket holds the
    number of occurrences of its value, and the counts sum to the number
    of values ingested. *)
Lemma ingest_counts_exact (vs : list Z) :
  Forall (λ v, 0 ≤ v ≤ MAX_VALUE) vs →
  (∀ v, occurrences v vs ≤ 255) →
  ∃ g, ingest vs initial = Ok g ∧ wf g ∧
       (∀ v, 0 ≤ v ≤ MAX_VALUE →
             valueCount g !! Z.to_nat v = Some (occurrences v vs)) ∧
       sumZ (valueCount g) = Z.of_nat (length vs).
Proof.
  induction vs as [|x vs IH] using rev_ind; intros Hvs Hocc.
  - exists initial. split; [done|]. split; [apply wf_initial|]. split.
    + intros v Hv. cbn. apply lookup_replicate_2.
      unfold VALUE_ARRAY_SIZE, MAX_VALUE in *. lia.
    + apply sumZ_zeros, Forall_replicate. done.
  - apply Forall_app in Hvs as [Hvs Hx].
    apply Forall_cons_1 in Hx as [Hx _].
    destruct IH as (g & Hin & Hg & Hcounts & Hsum); [done | |].
    { intros v. specialize (Hocc v). rewrite occurrences_snoc in Hocc.
      destruct (decide (x = v)); lia. }
    destruct (insertValue_inserted g x Hg Hx) as (c & Hc & Hins).
    exists (inserted x c g). rewrite ingest_app, Hin. cbn. rewrite Hins.
    split; [done|]. split; [by apply inserted_wf|].
    rewrite (Hcounts x Hx) in Hc. injection Hc as <-.
    assert (uint8 (occurrences x vs + 1) = occurrences x vs + 1) as Hu.
    { specialize (Hocc x). rewrite occurrences_snoc in Hocc.
      rewrite decide_True in Hocc by done.
      pose proof (occurrences_nonneg x vs).
      unfold uint8. apply Z.mod_small. lia. }
    split.
    + intros v Hv. rewrite occurrences_snoc. cbn [inserted valueCount].
      destruct (decide (x = v)) as [->|Hne].
      * rewrite list_lookup_insert_eq, Hu; [done|].
        by eapply lookup_lt_Some, Hcounts.
      * rewrite list_lookup_insert_ne by lia.
        rewrite Z.add_0_r. by apply Hcounts.
    + cbn [inserted valueCount].
      rewrite (sumZ_insert _ _ _ _ (Hcounts x Hx)), Hu, Hsum, length_app.
      cbn [length]. lia.
Qed.

(** C4 (amended): for every input on which ingestion succeeds and in which
    no value occurs more than 255 times, the counts of the 4096 buckets
    sum to the number of values ingested, [2 * (bytes / 3)] plus one when
    [bytes mod 3] is 2. *)
Theorem counts_sum_without_overflow (stale : stale_bytes) (bs : list byte) :
  (length bs mod 3 ≠ 1)%nat →
  (∀ v, occurrences v (decode bs) ≤ 255) →
  ∃ max g,
    parseInput stale (Some bs) initial = Ok (max, g) ∧ 0 ≤ max ∧
    length (valueCount g) = 4096%nat ∧
    sumZ (valueCount g) = Z.of_nat (length (decode bs)) ∧
    sumZ (valueCount g) = total_value_count (Z.of_nat (length bs)).
Proof.
  intros Hmod Hocc. pose proof (decode_range bs) as Hvs.
  destruct (ingest_counts_exact (decode bs) Hvs Hocc)
    as (g & Hin & Hg & _ & Hsum).
  exists (maxSeen 0 (decode bs)), g.
  split; [by rewrite parseInput_decode, Hin|].
  split; [apply maxSeen_ge|].
  split; [apply (wf_valueCount g Hg)|].
  split; [done|].
  rewrite Hsum. apply length_decode.
Qed.

(** The three bytes 0F FF 00: two values, each occurring once. *)
Lemma counts_sum_without_overflow_witness :
  (length [x0f; xff; x00] mod 3 ≠ 1)%nat ∧
  (∀ v, occurrences v (decode [x0f; xff; x00]) ≤ 255) ∧
  ∃ max g,
    parseInput nostale (Some [x0f; xff; x00]) initial = Ok (max, g) ∧
    0 ≤ max ∧
    length (valueCount g) = 4096%nat ∧
    sumZ (valueCount g) = Z.of_nat (length (decode [x0f; xff; x00])) ∧
    sumZ (valueCount g)
    = total_value_count (Z.of_nat (length [x0f; xff; x00])).
Proof.
  assert (H1 : (length [x0f; xff; x00] mod 3 ≠ 1)%nat) by (cbn; lia).
  assert (H2 : ∀ v, occurrences v (decode [x0f; xff; x00]) ≤ 255).
  { intros v. unfold occurrences.
    pose proof (length_filter (λ x, x = v) (decode [x0f; xff; x00])) as Hle.
    change (length (decode [x0f; xff; x00])) with 2%nat in Hle. lia. }
  split; [exact H1|]. split; [exact H2|].
  apply (counts_sum_without_overflow nostale [x0f; xff; x00] H1 H2).
Defined.


(** ** The sorted report *)


Lemma sortedLines_emitted (g : globals) (max start count : Z) :
  0 ≤ max ≤ MAX_VALUE →
  getCount g max = Ok count → getStart g max = Ok start →
  sortedLines g max
  = (SORTED_HEADER, OUTPUT_COUNT)
    :: value_lines (emitted g start (Z.to_nat count) start).
Proof.
  intros Hmax Hcount Hstart. unfold sortedLines, generateSortedOutput.
  unfold mbind at 1, io_bind at 1, lift at 1, assert.
  replace ((max <=? MAX_VALUE) && (max >=? 0)) with true by lia.
  unfold mbind at 1, io_bind at 1. cbn [fopen healthy fopen_ok negb].
  unfold mbind at 1, io_bind at 1. cbn [fprintf healthy fprintf_ok].
  unfold mbind at 1, io_bind at 1, lift at 1. rewrite Hcount.
  unfold mbind at 1, io_bind at 1, lift at 1. rewrite Hstart.
  unfold mbind at 1, io_bind at 1.
  match goal with
  | |- context [sortedLoop healthy g start (Z.to_nat count) start ?w] =>
    destruct (sortedLoop_healthy g start (Z.to_nat count) start w)
      as [[r|f] ->]
  end; reflexivity.
Qed.





(** * Further properties *)

(** ** Unpacking a group of bytes *)

(** Below the shift, bitwise or is addition. *)
Lemma lor_shiftl_add (a b n : Z) :
  0 ≤ n → 0 ≤ b < 2 ^ n → Z.lor (Z.shiftl a n) b = a * 2 ^ n + b.
Proof.
  intros Hn Hb. rewrite Z.shiftl_mul_pow2 by done.
  rewrite <- (Z.add_lor_land (a * 2 ^ n) b).
  assert (Z.land (a * 2 ^ n) b = 0) as ->; [|lia].
  apply Z.bits_inj'. intros m Hm.
  rewrite Z.land_spec, Z.bits_0.
  destruct (Z.lt_ge_cases m n) as [Hlt|Hge].
  - rewrite Z.mul_pow2_bits_low by done. done.
  - assert (Z.testbit b m = false) as ->; [|apply andb_false_r].
    destruct (decide (b = 0)) as [->|]; [apply Z.bits_0|].
    apply Z.bits_above_log2; [lia|].
    assert (Z.log2 b < n) by (apply Z.log2_lt_pow2; lia). lia.
Qed.

(** The 24-bit word of line 82 as a number. *)
Lemma pack_value (b0 b1 b2 : byte) :
  pack b0 b1 b2 = byteZ b0 * 65536 + byteZ b1 * 256 + byteZ b2.
Proof.
  unfold pack.
  pose proof (byteZ_range b0). pose proof (byteZ_range b1).
  pose proof (byteZ_range b2).
  replace (Z.lor (Z.shiftl (byteZ b0) 16) (Z.shiftl (byteZ b1) 8))
    with (Z.shiftl (Z.lor (Z.shiftl (byteZ b0) 8) (byteZ b1)) 8)
    by (rewrite Z.shiftl_lor, Z.shiftl_shiftl by lia; reflexivity).
  rewrite (lor_shiftl_add _ (byteZ b2) 8) by lia.
  rewrite (lor_shiftl_add _ (byteZ b1) 8) by lia. lia.
Qed.

(** X1: [get24bits] on three bytes or more takes three and returns
    65536 b0 + 256 b1 + b2; the upper value of line 112 is b0 followed by
    the high half of b1, the lower value of line 120 is the low half of b1
    followed by b2, and the two put the word together again.  On two bytes
    it takes both, and the upper value is the same whatever the third,
    unread, byte of the buffer holds. *)
Theorem group_unpacking (stale : byte * byte * byte) (b0 b1 b2 : byte)
    (rest : list byte) :
  ∃ value value2,
    get24bits stale (b0 :: b1 :: b2 :: rest) = (3, value, rest) ∧
    get24bits stale [b0; b1] = (2, value2, []) ∧
    value = 65536 * byteZ b0 + 256 * byteZ b1 + byteZ b2 ∧
    uint16 (UPPER_12BITS_MASK value) = 16 * byteZ b0 + byteZ b1 / 16 ∧
    uint16 (LOWER_12BITS_MASK value) = 256 * (byteZ b1 mod 16) + byteZ b2 ∧
    4096 * uint16 (UPPER_12BITS_MASK value) + uint16 (LOWER_12BITS_MASK value)
    = value ∧
    uint16 (UPPER_12BITS_MASK value2) = 16 * byteZ b0 + byteZ b1 / 16.
Proof.
  exists (pack b0 b1 b2), (pack b0 b1 stale.2).
  split; [done|]. split; [done|].
  pose proof (byteZ_range b0) as H0. pose proof (byteZ_range b1) as H1.
  pose proof (byteZ_range b2) as H2.
  pose proof (Z.div_mod (byteZ b1) 16 ltac:(lia)) as Hdm.
  pose proof (Z.mod_pos_bound (byteZ b1) 16 ltac:(lia)) as Hm.
  assert (0 ≤ byteZ b1 / 16 < 16) as Hq
    by (split; [apply Z.div_pos; lia | apply Z.div_lt_upper_bound; lia]).
  assert (∀ s : byte,
    uint16 (UPPER_12BITS_MASK (pack b0 b1 s)) = 16 * byteZ b0 + byteZ b1 / 16)
    as Hupper.
  { intros s. pose proof (byteZ_range s) as Hs.
    rewrite UPPER_12BITS_MASK_eq, pack_value. unfold uint16.
    assert ((byteZ b0 * 65536 + byteZ b1 * 256 + byteZ s) / 2 ^ 12
            = 16 * byteZ b0 + byteZ b1 / 16) as ->.
    { symmetry.
      apply (Z.div_unique_pos _ _ _ (256 * (byteZ b1 mod 16) + byteZ s)); lia. }
    rewrite (Z.mod_small _ (2 ^ 12)) by lia. apply Z.mod_small. lia. }
  assert (uint16 (LOWER_12BITS_MASK (pack b0 b1 b2))
          = 256 * (byteZ b1 mod 16) + byteZ b2) as Hlower.
  { rewrite LOWER_12BITS_MASK_eq, pack_value. unfold uint16.
    assert ((byteZ b0 * 65536 + byteZ b1 * 256 + byteZ b2) mod 2 ^ 12
            = 256 * (byteZ b1 mod 16) + byteZ b2) as ->.
    { symmetry.
      apply (Z.mod_unique_pos _ _ (16 * byteZ b0 + byteZ b1 / 16)); lia. }
    apply Z.mod_small. lia. }
  split; [rewrite pack_value; lia|].
  split; [apply Hupper|]. split; [apply Hlower|].
  split; [|apply Hupper].
  rewrite Hupper, Hlower, pack_value. lia.
Qed.

(** ** [parseInput] on any input *)

(** One value of lines 112-116 or 120-124 keeps the state well formed and
    the running maximum a 12-bit value. *)
Lemma ingest12_wf (v max : Z) (g : globals) :
  wf g → 0 ≤ v ≤ MAX_VALUE → 0 ≤ max ≤ MAX_VALUE →
  ∃ max' g', ingest12 v (max, g) = Ok (max', g') ∧ wf g' ∧
             0 ≤ max' ≤ MAX_VALUE.
Proof.
  intros Hg Hv Hmax. rewrite ingest12_insertValue by done.
  destruct (insertValue_inserted g v Hg Hv) as (c & _ & ->).
  eexists _, _. split; [done|]. split; [by apply inserted_wf|].
  destruct (Z.gtb_spec v max); lia.
Qed.

(** The loop of lines 97-126 raises no fault: its assertions hold and
    [insertValue] stays inside both arrays. *)
Lemma parseLoop_safe (stale : stale_bytes) (fuel k : nat) (bs : list byte)
    (max : Z) (g : globals) :
  (length bs < fuel)%nat → wf g → 0 ≤ max ≤ MAX_VALUE →
  ∃ r g', parseLoop stale fuel k bs max g = Ok (r, g') ∧ wf g' ∧
          ((length bs mod 3 = 1)%nat ∧ r = FAILURE ∨
           (length bs mod 3 ≠ 1)%nat ∧ 0 ≤ r ≤ MAX_VALUE).
Proof.
  revert k bs max g.
  induction fuel as [|fuel IH]; intros k bs max g Hlen Hg Hmax; [lia|].
  destruct bs as [|b0 [|b1 [|b2 rest]]]; cbn [length] in *.
  - exists max, g. split; [done|]. split; [done|]. by right.
  - exists FAILURE, g. split; [done|]. split; [done|]. by left.
  - cbn -[ingest12 UPPER_12BITS_MASK].
    destruct (ingest12_wf _ max g Hg
                (upper_range (pack b0 b1 (stale k).2)) Hmax)
      as (m1 & g1 & -> & Hg1 & Hm1).
    cbn -[ingest12 UPPER_12BITS_MASK].
    destruct fuel; [lia|]. cbn.
    exists m1, g1. split; [done|]. split; [done|]. by right.
  - rewrite mod3_group.
    cbn -[ingest12 UPPER_12BITS_MASK LOWER_12BITS_MASK Nat.modulo].
    destruct (ingest12_wf _ max g Hg (upper_range (pack b0 b1 b2)) Hmax)
      as (m1 & g1 & -> & Hg1 & Hm1).
    cbn -[ingest12 UPPER_12BITS_MASK LOWER_12BITS_MASK Nat.modulo].
    destruct (ingest12_wf _ m1 g1 Hg1 (lower_range (pack b0 b1 b2)) Hm1)
      as (m2 & g2 & -> & Hg2 & Hm2).
    cbn -[ingest12 UPPER_12BITS_MASK LOWER_12BITS_MASK Nat.modulo].
    apply IH; [lia | done | done].
Qed.


(** X2: from a well-formed state [parseInput] raises no fault and leaves a
    well-formed state.  When the file cannot be opened it returns [FAILURE]
    and touches nothing; on a file whose length is 1 modulo 3 it returns
    [FAILURE]; on any other file it returns a value from 0 to [MAX_VALUE],
    so [main]'s test [max < 0] tells the two apart. *)
Theorem parseInput_never_faults (stale : stale_bytes)
    (input : option (list byte)) (g : globals) :
  wf g →
  ∃ r g', parseInput stale input g = Ok (r, g') ∧ wf g' ∧
          match input with
          | None => r = FAILURE ∧ g' = g
          | Some bs =>
            if decide (length bs mod 3 = 1)%nat then r = FAILURE
            else 0 ≤ r ≤ MAX_VALUE
          end.
Proof.
  intros Hg. destruct input as [bs|]; cbn [parseInput].
  - destruct (parseLoop_safe stale (S (length bs)) 0 bs 0 g)
      as (r & g' & Hrun & Hg' & Hr); [lia | done | done |].
    exists r, g'. split; [done|]. split; [done|].
    destruct (decide _) as [Hd|Hd]; destruct Hr as [[? ?]|[? ?]]; done.
  - by exists FAILURE, g.
Qed.

Lemma parseInput_never_faults_witness :
  wf initial ∧
  ∃ r g', parseInput nostale (Some [x0f; xff; x00; x41]) initial = Ok (r, g')
          ∧ wf g' ∧
          if decide (length [x0f; xff; x00; x41] mod 3 = 1)%nat
          then r = FAILURE else 0 ≤ r ≤ MAX_VALUE.
Proof.
  split; [exact wf_initial|].
  apply (parseInput_never_faults nostale (Some [x0f; xff; x00; x41])
           initial wf_initial).
Defined.

(** What the buffer of [get24bits] held before a short read does not
    reach the result. *)
Lemma parseLoop_stale (stale stale' : stale_bytes) (fuel k k' : nat)
    (bs : list byte) (max : Z) (g : globals) :
  parseLoop stale fuel k bs max g = parseLoop stale' fuel k' bs max g.
Proof.
  revert k k' bs max g.
  induction fuel as [|fuel IH]; intros k k' bs max g; [done|].
  destruct bs as [|b0 [|b1 [|b2 rest]]].
  - done.
  - done.
  - cbn -[ingest12 UPPER_12BITS_MASK].
    rewrite (upper_stale b0 b1 (stale k).2 (stale' k').2).
    destruct (ingest12 _ _) as [[m1 g1]|]; [|done].
    cbn. apply IH.
  - cbn -[ingest12 UPPER_12BITS_MASK LOWER_12BITS_MASK].
    destruct (ingest12 _ (max, g)) as [[m1 g1]|]; [|done].
    cbn -[ingest12 UPPER_12BITS_MASK LOWER_12BITS_MASK].
    destruct (ingest12 _ (m1, g1)) as [[m2 g2]|]; [|done].
    cbn. apply IH.
Qed.

(** X3: the bytes the buffer of [get24bits] is left with after a short
    [fread] have no effect on what [parseInput] returns or stores. *)
Theorem parseInput_ignores_stale (stale stale' : stale_bytes)
    (input : option (list byte)) (g : globals) :
  parseInput stale input g = parseInput stale' input g.
Proof. destruct input; [apply parseLoop_stale | done]. Qed.

(** ** The maximum [parseInput] returns *)

(** The running maximum is its starting value or one of the values. *)
Lemma maxSeen_attained (vs : list Z) (m : Z) :
  maxSeen m vs = m ∨ maxSeen m vs ∈ vs.
Proof.
  revert m. induction vs as [|v vs IH]; intros m; cbn; [by left|].
  destruct (IH (if v >? m then v else m)) as [Heq|Hin].
  - unfold maxSeen in Heq. rewrite Heq.
    destruct (Z.gtb_spec v m); [right; apply list_elem_of_here | by left].
  - right. by apply list_elem_of_further.
Qed.

(** Above the largest value ingested every bucket is 0. *)
Lemma ingest_zero_above (vs : list Z) (g : globals) (j : nat) (c : Z) :
  ingest vs initial = Ok g → valueCount g !! j = Some c →
  maxSeen 0 vs < Z.of_nat j → c = 0.
Proof.
  intros Hin Hj Hlt. destruct (decide (c = 0)) as [|Hc]; [done|]. exfalso.
  assert (Z.of_nat j ∈ vs) as Hmem.
  { apply (ingest_counted vs initial g j c wf_initial Hin Hj).
    cbn. intros Hinit. apply lookup_replicate_1 in Hinit. lia. }
  apply (maxSeen_bounds vs 0) in Hmem. lia.
Qed.

(** X4: on a file whose length is not 1 modulo 3, the number [parseInput]
    returns is an upper bound of the values of the file, is one of them
    (or 0 when the file is empty), and every bucket above it is 0: the
    backward scans that start from it miss no value. *)
Theorem parseInput_returns_maximum (stale : stale_bytes) (bs : list byte) :
  (length bs mod 3 ≠ 1)%nat →
  ∃ max g, parseInput stale (Some bs) initial = Ok (max, g) ∧
           Forall (λ v, v ≤ max) (decode bs) ∧
           (max ∈ decode bs ∨ max = 0) ∧
           ∀ j c, max < Z.of_nat j → valueCount g !! j = Some c → c = 0.
Proof.
  intros Hmod.
  destruct (ingest_wf (decode bs) initial wf_initial (decode_range bs))
    as (g & Hin & _).
  exists (maxSeen 0 (decode bs)), g.
  split; [by rewrite parseInput_decode, Hin|].
  split; [apply Forall_forall; intros v; apply maxSeen_bounds|].
  split.
  - destruct (maxSeen_attained (decode bs) 0); [by right | by left].
  - intros j c Hj Hc. by eapply ingest_zero_above.
Qed.

Lemma parseInput_returns_maximum_witness :
  (length [x0f; xff; x00] mod 3 ≠ 1)%nat ∧
  ∃ max g, parseInput nostale (Some [x0f; xff; x00]) initial = Ok (max, g) ∧
           Forall (λ v, v ≤ max) (decode [x0f; xff; x00]) ∧
           (max ∈ decode [x0f; xff; x00] ∨ max = 0) ∧
           ∀ j c, max < Z.of_nat j → valueCount g !! j = Some c → c = 0.
Proof.
  assert (H : (length [x0f; xff; x00] mod 3 ≠ 1)%nat) by (cbn; lia).
  split; [exact H|].
  apply (parseInput_returns_maximum nostale [x0f; xff; x00] H).
Defined.

(** ** The counters of the table *)

(** Each bucket holds the number of occurrences of its value modulo 256. *)
Lemma ingest_counts_modulo (vs : list Z) :
  Forall (λ v, 0 ≤ v ≤ MAX_VALUE) vs →
  ∃ g, ingest vs initial = Ok g ∧ wf g ∧
       ∀ v, 0 ≤ v ≤ MAX_VALUE →
            valueCount g !! Z.to_nat v = Some (occurrences v vs mod 2 ^ 8).
Proof.
  induction vs as [|x vs IH] using rev_ind; intros Hvs.
  - exists initial. split; [done|]. split; [apply wf_initial|].
    intros v Hv. cbn. apply lookup_replicate_2.
    unfold VALUE_ARRAY_SIZE, MAX_VALUE in *. lia.
  - apply Forall_app in Hvs as [Hvs Hx].
    apply Forall_cons_1 in Hx as [Hx _].
    destruct (IH Hvs) as (g & Hin & Hg & Hcounts).
    destruct (insertValue_inserted g x Hg Hx) as (c & Hc & Hins).
    exists (inserted x c g). rewrite ingest_app, Hin. cbn. rewrite Hins.
    split; [done|]. split; [by apply inserted_wf|].
    rewrite (Hcounts x Hx) in Hc. injection Hc as <-.
    intros v Hv. rewrite occurrences_snoc. cbn [inserted valueCount].
    destruct (decide (x = v)) as [->|Hne].
    + rewrite list_lookup_insert_eq by (by eapply lookup_lt_Some, Hcounts).
      unfold uint8. by rewrite Zplus_mod_idemp_l.
    + rewrite list_lookup_insert_ne by lia.
      rewrite Z.add_0_r. by apply Hcounts.
Qed.

(** X5: after [parseInput], the 8-bit counter of every value holds the
    number of its occurrences in the file modulo 256, whatever the length
    of the file. *)
Theorem buckets_count_modulo (stale : stale_bytes) (bs : list byte) :
  (length bs mod 3 ≠ 1)%nat →
  ∃ max g, parseInput stale (Some bs) initial = Ok (max, g) ∧
           ∀ v, 0 ≤ v ≤ MAX_VALUE →
                valueCount g !! Z.to_nat v
                = Some (occurrences v (decode bs) mod 256).
Proof.
  intros Hmod.
  destruct (ingest_counts_modulo (decode bs) (decode_range bs))
    as (g & Hin & _ & Hcounts).
  exists (maxSeen 0 (decode bs)), g.
  split; [by rewrite parseInput_decode, Hin | done].
Qed.

Lemma buckets_count_modulo_witness :
  (length (replicate 384 x00) mod 3 ≠ 1)%nat ∧
  ∃ max g, parseInput nostale (Some (replicate 384 x00)) initial = Ok (max, g) ∧
           ∀ v, 0 ≤ v ≤ MAX_VALUE →
                valueCount g !! Z.to_nat v
                = Some (occurrences v (decode (replicate 384 x00)) mod 256).
Proof.
  assert (H : (length (replicate 384 x00) mod 3 ≠ 1)%nat)
    by (vm_compute; lia).
  split; [exact H|].
  apply (buckets_count_modulo nostale (replicate 384 x00) H).
Defined.

(** ** A file in two parts *)

(** A whole number of groups unpacks on its own. *)
Lemma decode_app (bs bs' : list byte) :
  (length bs mod 3 = 0)%nat → decode (bs ++ bs') = decode bs ++ decode bs'.
Proof.
  induction bs as [bs IH] using (induction_ltof1 _ (@length byte)).
  unfold ltof in IH. intros Hmod.
  destruct bs as [|b0 [|b1 [|b2 rest]]]; try done.
  cbn [length] in Hmod. rewrite mod3_group in Hmod.
  change ((b0 :: b1 :: b2 :: rest) ++ bs')
    with (b0 :: b1 :: b2 :: (rest ++ bs')).
  cbn [decode]. rewrite IH by (cbn; lia || done). done.
Qed.

Lemma maxSeen_split (vs : list Z) (m : Z) :
  0 ≤ m → maxSeen m vs = Z.max m (maxSeen 0 vs).
Proof.
  revert m. unfold maxSeen.
  induction vs as [|v vs IH] using rev_ind; intros m Hm; [cbn; lia|].
  rewrite !foldl_app. cbn. rewrite (IH m Hm).
  pose proof (maxSeen_ge vs 0) as H0. unfold maxSeen in H0.
  destruct (Z.gtb_spec v (m `max` foldl (λ m0 v0 : Z, if v0 >? m0 then v0 else m0) 0 vs));
  destruct (Z.gtb_spec v (foldl (λ m0 v0 : Z, if v0 >? m0 then v0 else m0) 0 vs)); lia.
Qed.

(** X6: parsing a file made of whole groups followed by a second part is
    parsing the first part, then the second part from the state the first
    left; the maximum returned is the larger of the two. *)
Theorem parseInput_concat (stale : stale_bytes) (bs bs' : list byte)
    (g : globals) :
  (length bs mod 3 = 0)%nat → (length bs' mod 3 ≠ 1)%nat →
  parseInput stale (Some (bs ++ bs')) g =
  ('(m1, g1) ← parseInput stale (Some bs) g;
   '(m2, g2) ← parseInput stale (Some bs') g1;
   Ok (Z.max m1 m2, g2)).
Proof.
  intros Hmod Hmod'.
  assert ((length (bs ++ bs') mod 3 ≠ 1)%nat) as Hmod''.
  { rewrite length_app, Nat.Div0.add_mod, Hmod, Nat.add_0_l.
    by rewrite Nat.Div0.mod_mod. }
  rewrite !parseInput_decode by (done || by rewrite Hmod).
  rewrite decode_app, ingest_app by done.
  destruct (ingest (decode bs) g) as [g1|]; cbn [mbind result_bind]; [|done].
  rewrite parseInput_decode by done.
  destruct (ingest (decode bs') g1) as [g2|]; cbn [mbind result_bind];
    [|done].
  do 2 f_equal. unfold maxSeen at 1. rewrite foldl_app.
  apply maxSeen_split, maxSeen_ge.
Qed.

Lemma parseInput_concat_witness :
  (length [x0f; xff; x00] mod 3 = 0)%nat ∧
  (length [xab; xcd] mod 3 ≠ 1)%nat ∧
  parseInput nostale (Some ([x0f; xff; x00] ++ [xab; xcd])) initial =
  ('(m1, g1) ← parseInput nostale (Some [x0f; xff; x00]) initial;
   '(m2, g2) ← parseInput nostale (Some [xab; xcd]) g1;
   Ok (Z.max m1 m2, g2)).
Proof.
  assert (H1 : (length [x0f; xff; x00] mod 3 = 0)%nat) by reflexivity.
  assert (H2 : (length [xab; xcd] mod 3 ≠ 1)%nat) by (cbn; lia).
  split; [exact H1|]. split; [exact H2|].
  apply (parseInput_concat nostale [x0f; xff; x00] [xab; xcd] initial H1 H2).
Defined.

(** ** The reports on any sink *)

(** [fprintf] appends one entry to the log, and the line to the file when
    the write succeeds. *)
Lemma fprintf_result (e : Env) (fmt : string) (arg : Z) (w : world) :
  fprintf e fmt arg w =
  if fprintf_ok e (log w) fmt arg
  then (Ok (Z.of_nat (String.length (sprintf fmt arg))),
        {| file := file w ++ [(fmt, arg)];
           log := log w ++ [Fprintf fmt arg true];
           stdout := stdout w |})
  else (Ok (-1),
        {| file := file w;
           log := log w ++ [Fprintf fmt arg false];
           stdout := stdout w |}).
Proof. unfold fprintf. by destruct (fprintf_ok e (log w) fmt arg). Qed.

Lemma printCopies_step (e : Env) (i : Z) (n : nat) (w : world) :
  printCopies e i (S n) w =
  if fprintf_ok e (log w) VALUE_LINE i
  then printCopies e i n (wrote w [i])
  else (Ok FAILURE, failed w i).
Proof.
  cbn [printCopies]. unfold mbind at 1, io_bind at 1.
  rewrite fprintf_result.
  destruct (fprintf_ok e (log w) VALUE_LINE i); [|done].
  by replace (_ <? SUCCESS) with false by (unfold SUCCESS; lia).
Qed.

Lemma printCopies_any (e : Env) (i : Z) (n : nat) (w : world) :
  printCopies e i n w = (Ok SUCCESS, wrote w (replicate n i)) ∨
  ∃ k, (k < n)%nat ∧
       printCopies e i n w = (Ok FAILURE, failed (wrote w (replicate k i)) i).
Proof.
  revert w. induction n as [|n IH]; intros w.
  - left. by rewrite wrote_nil.
  - rewrite printCopies_step.
    destruct (fprintf_ok e (log w) VALUE_LINE i).
    + destruct (IH (wrote w [i])) as [->|(k & Hk & ->)].
      * left. by rewrite wrote_app.
      * right. exists (S k). split; [lia|]. by rewrite wrote_app.
    + right. exists 0%nat. split; [lia|]. by rewrite wrote_nil.
Qed.

Lemma array_get_Fault (a : list Z) (i : Z) (f : fault) :
  array_get a i = Fault f →
  f = OutOfBounds i ∧ (i < 0 ∨ Z.of_nat (length a) ≤ i).
Proof.
  unfold array_get. destruct (Z.leb_spec 0 i) as [Hi|Hi].
  - destruct (a !! Z.to_nat i) eqn:Hl; [done|].
    intros [= <-]. split; [done|]. apply lookup_ge_None in Hl. lia.
  - intros [= <-]. split; [done | lia].
Qed.

Lemma sortedLoop_step (e : Env) (g : globals) (start : Z) (count : nat)
    (i : Z) (w : world) :
  sortedLoop e g start (S count) i w =
  match array_get (valueCount g) i with
  | Ok c =>
    if c <=? 0 then sortedLoop e g start count (i + 1) w
    else
      match printCopies e i
              (Z.to_nat (if (i =? start) && (Z.of_nat (S count) >? OUTPUT_COUNT)
                         then c - (Z.of_nat (S count) - OUTPUT_COUNT)
                         else c)) w with
      | (Ok r, w') =>
        if r <? SUCCESS then (Ok FAILURE, w')
        else sortedLoop e g start count (i + 1) w'
      | (Fault f, w') => (Fault f, w')
      end
  | Fault f => (Fault f, w)
  end.
Proof.
  cbn [sortedLoop]. unfold mbind at 1, io_bind at 1, lift at 1.
  destruct (array_get (valueCount g) i) as [c|]; [|done].
  destruct (c <=? 0); [done|]. unfold mbind at 1, io_bind at 1.
  destruct (printCopies _ _ _ _) as [[r|] w']; [|done].
  by destruct (r <? SUCCESS).
Qed.

(** What the output loop does on any sink. *)
Lemma sortedLoop_any (e : Env) (g : globals) (start : Z) (count : nat)
    (i : Z) (w : world) :
  0 ≤ i ≤ Z.of_nat (length (valueCount g)) →
  (sortedLoop e g start count i w
   = (Ok SUCCESS, wrote w (emitted g start count i)) ∧
   i + Z.of_nat count ≤ Z.of_nat (length (valueCount g))) ∨
  (sortedLoop e g start count i w
   = (Fault (OutOfBounds (Z.of_nat (length (valueCount g)))),
      wrote w (emitted g start count i)) ∧
   Z.of_nat (length (valueCount g)) < i + Z.of_nat count) ∨
  (∃ vs v, (vs ++ [v]) `prefix_of` emitted g start count i ∧
           sortedLoop e g start count i w
           = (Ok FAILURE, failed (wrote w vs) v)).
Proof.
  revert i w. induction count as [|count IH]; intros i w Hi.
  - left. rewrite wrote_nil. split; [done | lia].
  - rewrite sortedLoop_step. cbn [emitted].
    destruct (array_get (valueCount g) i) as [c|f] eqn:Hc.
    + apply array_get_Ok in Hc as [_ Hc].
      apply lookup_lt_Some in Hc.
      destruct (c <=? 0).
      * destruct (IH (i + 1) w) as [[-> ?]|[[-> ?]|(vs & v & Hp & ->)]];
          [lia | left | right; left | right; right].
        -- split; [done | lia].
        -- split; [done | lia].
        -- by exists vs, v.
      * set (n := Z.to_nat _).
        destruct (printCopies_any e i n w) as [->|(k & Hk & ->)].
        -- replace (SUCCESS <? SUCCESS) with false by done.
           destruct (IH (i + 1) (wrote w (replicate n i)))
             as [[-> ?]|[[-> ?]|(vs & v & Hp & ->)]];
             [lia | left | right; left | right; right].
           ++ rewrite wrote_app. split; [done | lia].
           ++ rewrite wrote_app. split; [done | lia].
           ++ exists (replicate n i ++ vs), v. rewrite wrote_app.
              split; [|done]. rewrite <- app_assoc. by apply prefix_app.
        -- replace (FAILURE <? SUCCESS) with true by done.
           right; right. exists (replicate k i), i. split; [|done].
           apply prefix_app_r.
           replace n with (S k + (n - S k))%nat by lia.
           rewrite replicate_add.
           replace (replicate k i ++ [i]) with (replicate (S k) i)
             by (by rewrite replicate_S_end).
           apply prefix_app_r. done.
    + apply array_get_Fault in Hc as [-> Hc].
      right; left. rewrite wrote_nil.
      assert (i = Z.of_nat (length (valueCount g))) as -> by lia.
      split; [done | lia].
Qed.

Lemma healthy_never_fails (w : world) (vs vs' : list Z) (v : Z) :
  failed (wrote w vs) v ≠ wrote w vs'.
Proof.
  intros Heq. apply (f_equal log) in Heq. cbn in Heq.
  rewrite <- app_assoc in Heq. apply app_inv_head in Heq.
  assert (Fprintf VALUE_LINE v false
          ∈ map (λ v0, Fprintf VALUE_LINE v0 true) vs') as Hin.
  { rewrite <- Heq. apply elem_of_app. right. apply list_elem_of_here. }
  apply list_elem_of_fmap in Hin as (x & Hx & _). discriminate Hx.
Qed.

(** The opening of a report: [fopen], then the header, whose result is
    not looked at. *)
Lemma report_opening (e : Env) (mode fmt : string) (k : io Z) (w : world) :
  (outputFile ← fopen e mode;
   if negb outputFile then mret FAILURE
   else _ ← fprintf e fmt OUTPUT_COUNT; k) w =
  if fopen_ok e (log w) mode
  then k (opened w mode fmt
            (fprintf_ok e (log w ++ [Fopen mode true]) fmt OUTPUT_COUNT))
  else (Ok FAILURE, refused w mode).
Proof.
  unfold mbind at 1, io_bind at 1. cbn [fopen].
  destruct (fopen_ok e (log w) mode); cbn [negb andb]; [|done].
  unfold mbind at 1, io_bind at 1. rewrite fprintf_result. cbn [log file].
  unfold opened.
  destruct (fprintf_ok e (log w ++ [Fopen mode true]) fmt OUTPUT_COUNT).
  - by rewrite <- app_assoc.
  - by rewrite <- app_assoc, app_nil_r.
Qed.

Lemma generateSortedOutput_unfold (e : Env) (g : globals)
    (max start count : Z) (w : world) :
  0 ≤ max ≤ MAX_VALUE →
  getCount g max = Ok count → getStart g max = Ok start →
  generateSortedOutput e g max w =
  if fopen_ok e (log w) "w" then
    match sortedLoop e g start (Z.to_nat count) start
            (opened w "w" SORTED_HEADER
               (fprintf_ok e (log w ++ [Fopen "w" true])
                  SORTED_HEADER OUTPUT_COUNT)) with
    | (Ok r, w') => (Ok r, closed w')
    | (Fault f, w') => (Fault f, w')
    end
  else (Ok FAILURE, refused w "w").
Proof.
  intros Hmax Hcount Hstart. unfold generateSortedOutput.
  unfold mbind at 1, io_bind at 1, lift at 1, assert.
  replace ((max <=? MAX_VALUE) && (max >=? 0)) with true by lia.
  rewrite report_opening, Hcount, Hstart.
  destruct (fopen_ok e (log w) "w"); [|done].
  unfold mbind at 1, io_bind at 1, lift at 1.
  unfold mbind at 1, io_bind at 1, lift at 1.
  unfold mbind at 1, io_bind at 1.
  by destruct (sortedLoop _ _ _ _ _ _) as [[r|] w'].
Qed.

Lemma generateSortedOutput_any (e : Env) (g : globals) (max : Z) (w : world) :
  wf g → 0 ≤ max ≤ MAX_VALUE →
  ∃ start count,
    getCount g max = Ok count ∧ getStart g max = Ok start ∧
    if fopen_ok e (log w) "w" then
      let w0 := opened w "w" SORTED_HEADER
                  (fprintf_ok e (log w ++ [Fopen "w" true])
                     SORTED_HEADER OUTPUT_COUNT) in
      (generateSortedOutput e g max w
       = (Ok SUCCESS, closed (wrote w0 (sortedValues g max))) ∧
       start + count ≤ VALUE_ARRAY_SIZE) ∨
      (generateSortedOutput e g max w
       = (Fault (OutOfBounds VALUE_ARRAY_SIZE),
          wrote w0 (sortedValues g max)) ∧
       VALUE_ARRAY_SIZE < start + count) ∨
      (∃ vs v, (vs ++ [v]) `prefix_of` sortedValues g max ∧
               generateSortedOutput e g max w
               = (Ok FAILURE, closed (failed (wrote w0 vs) v)))
    else generateSortedOutput e g max w = (Ok FAILURE, refused w "w").
Proof.
  intros Hg Hmax.
  destruct (scan_results g max Hg Hmax)
    as (start & count & Hcount & Hstart & Hs & Hc & _ & _).
  exists start, count. split; [done|]. split; [done|].
  rewrite !(generateSortedOutput_unfold e g max start count w Hmax
              Hcount Hstart).
  unfold sortedValues. rewrite Hcount, Hstart.
  destruct (fopen_ok e (log w) "w"); [|done].
  cbn zeta. set (w0 := opened _ _ _ _).
  assert (Z.of_nat (length (valueCount g)) = VALUE_ARRAY_SIZE) as Hlen
    by (by rewrite (wf_valueCount g Hg)).
  assert (VALUE_ARRAY_SIZE = 4096) as HV by done.
  destruct (sortedLoop_any e g start (Z.to_nat count) start w0)
    as [[-> ?]|[[-> ?]|(vs & v & Hp & ->)]].
  - unfold MAX_VALUE in *. lia.
  - left. split; [done | lia].
  - right; left. rewrite Hlen. split; [done | lia].
  - right; right. by exists vs, v.
Qed.

(** The recency report on any sink *)

Lemma lastLoop_step (e : Env) (g : globals) (n : nat) (idx : Z) (w : world) :
  lastLoop e g (S n) idx w =
  match array_get (lastValues g) idx with
  | Ok value =>
    if (value <=? MAX_VALUE) && (value >=? 0) then
      if fprintf_ok e (log w) VALUE_LINE value
      then lastLoop e g n ((idx + 1) mod OUTPUT_COUNT) (wrote w [value])
      else (Ok FAILURE, failed w value)
    else (Fault AssertFailed, w)
  | Fault f => (Fault f, w)
  end.
Proof.
  cbn [lastLoop]. unfold mbind at 1, io_bind at 1, lift at 1.
  destruct (array_get (lastValues g) idx) as [value|]; [|done].
  unfold mbind at 1, io_bind at 1, lift at 1, assert.
  destruct ((value <=? MAX_VALUE) && (value >=? 0)); [|done].
  unfold mbind at 1, io_bind at 1. rewrite fprintf_result.
  destruct (fprintf_ok e (log w) VALUE_LINE value); [|done].
  by replace (_ <? SUCCESS) with false by (unfold SUCCESS; lia).
Qed.

Lemma lastLoop_any (e : Env) (g : globals) (out : list Z) (idx : Z)
    (w : world) :
  0 ≤ idx < OUTPUT_COUNT →
  Forall (λ v, 0 ≤ v ≤ MAX_VALUE) out →
  (∀ (t : nat) v, out !! t = Some v →
     lastValues g !! Z.to_nat ((idx + Z.of_nat t) mod OUTPUT_COUNT) = Some v) →
  lastLoop e g (length out) idx w = (Ok SUCCESS, wrote w out) ∨
  ∃ k v, out !! k = Some v ∧
         lastLoop e g (length out) idx w
         = (Ok FAILURE, failed (wrote w (take k out)) v).
Proof.
  revert idx w. induction out as [|v out IH]; intros idx w Hidx Hout Hring.
  - left. by rewrite wrote_nil.
  - apply Forall_cons_1 in Hout as [Hv Hout].
    pose proof (Hring 0%nat v eq_refl) as H0.
    rewrite Z.add_0_r, Z.mod_small in H0 by done.
    cbn [length]. rewrite lastLoop_step.
    unfold array_get. replace (0 <=? idx) with true by lia. rewrite H0.
    replace ((v <=? MAX_VALUE) && (v >=? 0)) with true by lia.
    destruct (fprintf_ok e (log w) VALUE_LINE v).
    + destruct (IH ((idx + 1) mod OUTPUT_COUNT) (wrote w [v]))
        as [->|(k & x & Hk & ->)].
      * apply Z.mod_pos_bound. done.
      * done.
      * intros t x Hx. rewrite Zplus_mod_idemp_l.
        replace (idx + 1 + Z.of_nat t) with (idx + Z.of_nat (S t)) by lia.
        by apply Hring.
      * left. by rewrite wrote_app.
      * right. exists (S k), x. split; [done|]. by rewrite wrote_app.
    + right. exists 0%nat, v. split; [done|]. by rewrite wrote_nil.
Qed.

Lemma ringValues_length (g : globals) :
  length (ringValues g) = Z.to_nat (lastValuesCount g).
Proof. unfold ringValues. by rewrite length_fmap, length_seq. Qed.

Lemma ringValues_lookup (g : globals) (t : nat) (v : Z) :
  wf g → ringValues g !! t = Some v →
  lastValues g !! Z.to_nat ((startIdx g + Z.of_nat t) mod OUTPUT_COUNT)
  = Some v.
Proof.
  intros Hg. unfold ringValues. rewrite list_lookup_fmap.
  destruct (seq 0 (Z.to_nat (lastValuesCount g)) !! t) as [t'|] eqn:Ht;
    [|done].
  apply lookup_seq in Ht as [-> _]. cbn. intros [= <-].
  pose proof (Z.mod_pos_bound (startIdx g + Z.of_nat t) OUTPUT_COUNT
                ltac:(done)) as Hb.
  destruct (lookup_lt_is_Some_2 (lastValues g)
              (Z.to_nat ((startIdx g + Z.of_nat t) mod OUTPUT_COUNT)))
    as [x Hx].
  { rewrite (wf_lastValues g Hg). lia. }
  by rewrite Hx.
Qed.

Lemma ringValues_range (g : globals) :
  wf g → Forall (λ v, 0 ≤ v ≤ MAX_VALUE) (ringValues g).
Proof.
  intros Hg. apply Forall_lookup. intros t v Ht.
  apply (ringValues_lookup g t v Hg) in Ht.
  pose proof (wf_values g Hg) as Hvs. rewrite Forall_forall in Hvs.
  apply Hvs. by eapply list_elem_of_lookup_2.
Qed.

Lemma generateLastOutput_any (e : Env) (g : globals) (w : world) :
  wf g →
  if fopen_ok e (log w) "a" then
    let w0 := opened w "a" LAST_HEADER
                (fprintf_ok e (log w ++ [Fopen "a" true])
                   LAST_HEADER OUTPUT_COUNT) in
    generateLastOutput e g w
    = (Ok SUCCESS, closed (wrote w0 (ringValues g))) ∨
    ∃ k v, ringValues g !! k = Some v ∧
           generateLastOutput e g w
           = (Ok FAILURE, closed (failed (wrote w0 (take k (ringValues g))) v))
  else generateLastOutput e g w = (Ok FAILURE, refused w "a").
Proof.
  intros Hg.
  assert (generateLastOutput e g w =
          if fopen_ok e (log w) "a" then
            match lastLoop e g (length (ringValues g)) (startIdx g)
                    (opened w "a" LAST_HEADER
                       (fprintf_ok e (log w ++ [Fopen "a" true])
                          LAST_HEADER OUTPUT_COUNT)) with
            | (Ok r, w') => (Ok r, closed w')
            | (Fault f, w') => (Fault f, w')
            end
          else (Ok FAILURE, refused w "a")) as Hunfold.
  { unfold generateLastOutput. rewrite report_opening, ringValues_length.
    destruct (fopen_ok e (log w) "a"); [|done].
    unfold mbind at 1, io_bind at 1.
    by destruct (lastLoop _ _ _ _ _) as [[r|] w']. }
  rewrite !Hunfold. clear Hunfold.
  destruct (fopen_ok e (log w) "a"); [|done].
  cbn zeta. set (w0 := opened _ _ _ _).
  destruct (lastLoop_any e g (ringValues g) (startIdx g) w0)
    as [->|(k & v & Hk & ->)].
  - unfold startIdx. apply Z.mod_pos_bound. done.
  - by apply ringValues_range.
  - intros t v. by apply ringValues_lookup.
  - by left.
  - right. by exists k, v.
Qed.

(** After ingestion the ring reads back as the tail of the stream. *)
Lemma ringValues_ingest (vs : list Z) (g : globals) :
  ingest vs initial = Ok g →
  ringValues g = drop (length vs - 32) vs.
Proof.
  intros Hin.
  pose proof (ingest_range vs initial g wf_initial Hin) as Hvs.
  destruct (ingest_ring vs Hvs) as (g' & Hin' & Hg & Hidx & Hcnt & Hring).
  rewrite Hin in Hin'. injection Hin' as <-.
  apply list_eq. intros t. unfold ringValues.
  rewrite list_lookup_fmap, lookup_drop.
  destruct (decide (t < Z.to_nat (lastValuesCount g))%nat) as [Ht|Ht].
  - rewrite (proj2 (lookup_seq 0 _ t t)) by (split; [done | lia]). cbn.
    unfold OUTPUT_COUNT in *.
    assert ((startIdx g + Z.of_nat t) mod 32
            = Z.of_nat (length vs - 32 + t) mod 32) as ->.
    { unfold startIdx. rewrite size_t_mod, Hidx, Hcnt. unfold OUTPUT_COUNT.
      rewrite Zplus_mod_idemp_l.
      replace (Z.of_nat (length vs) mod 32 - Z.of_nat (length vs) `min` 32
               + Z.of_nat t)
        with (Z.of_nat (length vs) mod 32
              + (Z.of_nat t - Z.of_nat (length vs) `min` 32)) by lia.
      rewrite Zplus_mod_idemp_l. f_equal. lia. }
    rewrite Hring by lia. rewrite Nat2Z.id.
    destruct (lookup_lt_is_Some_2 vs (length vs - 32 + t)) as [x Hx]; [lia|].
    by rewrite Hx.
  - rewrite (lookup_ge_None_2 (seq _ _)) by (rewrite length_seq; lia).
    cbn. symmetry. apply lookup_ge_None_2. unfold OUTPUT_COUNT in *. lia.
Qed.

(** The sorted report on a healthy sink *)

Lemma generateSortedOutput_healthy_cases (g : globals) (max : Z) (w : world) :
  wf g → 0 ≤ max ≤ MAX_VALUE →
  ∃ start count,
    getCount g max = Ok count ∧ getStart g max = Ok start ∧
    let w0 := opened w "w" SORTED_HEADER true in
    (start + count ≤ VALUE_ARRAY_SIZE ∧
     generateSortedOutput healthy g max w
     = (Ok SUCCESS, closed (wrote w0 (sortedValues g max)))) ∨
    (VALUE_ARRAY_SIZE < start + count ∧
     generateSortedOutput healthy g max w
     = (Fault (OutOfBounds VALUE_ARRAY_SIZE), wrote w0 (sortedValues g max))).
Proof.
  intros Hg Hmax.
  destruct (generateSortedOutput_any healthy g max w Hg Hmax)
    as (start & count & Hcount & Hstart & Hcases).
  exists start, count. split; [done|]. split; [done|].
  cbn [healthy fopen_ok fprintf_ok] in Hcases. cbn zeta in *.
  destruct Hcases as [[? ?]|[[? ?]|(vs & v & _ & Hfail)]];
    [by left | by right | exfalso].
  rewrite (generateSortedOutput_unfold healthy g max start count w Hmax
             Hcount Hstart) in Hfail.
  cbn [healthy fopen_ok fprintf_ok] in Hfail.
  destruct (sortedLoop_healthy g start (Z.to_nat count) start
              (opened w "w" SORTED_HEADER true)) as [r Hr].
  rewrite Hr in Hfail. destruct r as [r|]; [|done].
  apply (f_equal (λ p, log p.2)) in Hfail. cbn in Hfail.
  apply app_inj_tail in Hfail as [Hw _].
  rewrite <- !app_assoc in Hw. apply app_inv_head in Hw.
  cbn in Hw. injection Hw as Hw.
  assert (Fprintf VALUE_LINE v false
          ∈ map (λ v0, Fprintf VALUE_LINE v0 true)
                (emitted g start (Z.to_nat count) start)) as Hin.
  { rewrite Hw. apply elem_of_app. right. apply list_elem_of_here. }
  apply list_elem_of_fmap in Hin as (x & Hx & _). discriminate Hx.
Qed.

(** ** The steps of [main] *)

(** With three arguments and an input that parses, [main] is the two
    reports in sequence. *)
Lemma main_unfold (stale : stale_bytes) (e : Env) (argv0 : string)
    (input : option (list byte)) (max : Z) (g : globals) (w : world) :
  parseInput stale input initial = Ok (max, g) → 0 ≤ max →
  main stale e (NUM_ARGS + 1) argv0 input w =
  match generateSortedOutput e g max w with
  | (Ok r, w1) =>
    if r <? SUCCESS then (Ok FAILURE, printed w1 OUTPUT_ERROR)
    else
      match generateLastOutput e g w1 with
      | (Ok r, w2) =>
        if r <? SUCCESS then (Ok FAILURE, printed w2 OUTPUT_ERROR)
        else (Ok SUCCESS, w2)
      | (Fault f, w2) => (Fault f, w2)
      end
  | (Fault f, w1) => (Fault f, w1)
  end.
Proof.
  intros Hparse Hmax. unfold main. rewrite Z.eqb_refl. cbn [negb].
  unfold mbind at 1, io_bind at 1, lift at 1. rewrite Hparse.
  replace (max <? 0) with false by lia.
  unfold mbind at 1, io_bind at 1.
  destruct (generateSortedOutput e g max w) as [[r|] w1]; [|done].
  destruct (r <? SUCCESS); [done|].
  unfold mbind at 1, io_bind at 1.
  destruct (generateLastOutput e g w1) as [[r2|] w2]; [|done].
  by destruct (r2 <? SUCCESS).
Qed.



(** X10: [generateSortedOutput] on any sink.  When [fopen] is refused it
    returns [FAILURE] and does nothing else.  Otherwise it writes the
    header, whose result it does not look at, and then either writes
    every value line and closes the sink, returning [SUCCESS]; or stops at
    the first value line the sink refuses, closes the sink and returns
    [FAILURE]; or, all lines written, reads [valueCount[4096]], the one
    fault it can raise, with the sink left open. *)
Theorem sorted_report_on_any_sink (e : Env) (g : globals) (max : Z)
    (w : world) :
  wf g → 0 ≤ max ≤ MAX_VALUE →
  let w0 := opened w "w" SORTED_HEADER
              (fprintf_ok e (log w ++ [Fopen "w" true])
                 SORTED_HEADER OUTPUT_COUNT) in
  match generateSortedOutput e g max w with
  | (Ok r, w1) =>
    if fopen_ok e (log w) "w" then
      (r = SUCCESS ∧ w1 = closed (wrote w0 (sortedValues g max))) ∨
      (r = FAILURE ∧
       ∃ vs v, (vs ++ [v]) `prefix_of` sortedValues g max ∧
               w1 = closed (failed (wrote w0 vs) v))
    else r = FAILURE ∧ w1 = refused w "w"
  | (Fault f, w1) =>
    f = OutOfBounds VALUE_ARRAY_SIZE ∧ w1 = wrote w0 (sortedValues g max)
  end.
Proof.
  intros Hg Hmax.
  destruct (generateSortedOutput_any e g max w Hg Hmax)
    as (start & count & _ & _ & Hcases).
  cbn zeta in *. destruct (fopen_ok e (log w) "w").
  - destruct Hcases as [[-> _]|[[-> _]|(vs & v & Hp & ->)]].
    + by left.
    + done.
    + right. split; [done|]. by exists vs, v.
  - by rewrite Hcases.
Qed.

Lemma sorted_report_on_any_sink_witness :
  wf initial ∧ 0 ≤ 0 ≤ MAX_VALUE ∧
  let w0 := opened fresh "w" SORTED_HEADER
              (fprintf_ok healthy (log fresh ++ [Fopen "w" true])
                 SORTED_HEADER OUTPUT_COUNT) in
  match generateSortedOutput healthy initial 0 fresh with
  | (Ok r, w1) =>
    if fopen_ok healthy (log fresh) "w" then
      (r = SUCCESS ∧ w1 = closed (wrote w0 (sortedValues initial 0))) ∨
      (r = FAILURE ∧
       ∃ vs v, (vs ++ [v]) `prefix_of` sortedValues initial 0 ∧
               w1 = closed (failed (wrote w0 vs) v))
    else r = FAILURE ∧ w1 = refused fresh "w"
  | (Fault f, w1) =>
    f = OutOfBounds VALUE_ARRAY_SIZE ∧
    w1 = wrote w0 (sortedValues initial 0)
  end.
Proof.
  assert (H : 0 ≤ 0 ≤ MAX_VALUE) by (unfold MAX_VALUE; lia).
  split; [exact wf_initial|]. split; [exact H|].
  apply (sorted_report_on_any_sink healthy initial 0 fresh wf_initial H).
Defined.

(** X11: [generateLastOutput] on any sink raises no fault.  When [fopen]
    is refused it returns [FAILURE] and does nothing else.  Otherwise it
    writes the header, whose result it does not look at, and then either
    writes the values of the ring, oldest first, and closes the sink,
    returning [SUCCESS]; or stops at the first value line the sink
    refuses, closes the sink and returns [FAILURE]. *)
Theorem last_report_on_any_sink (e : Env) (g : globals) (w : world) :
  wf g →
  let w0 := opened w "a" LAST_HEADER
              (fprintf_ok e (log w ++ [Fopen "a" true])
                 LAST_HEADER OUTPUT_COUNT) in
  match generateLastOutput e g w with
  | (Ok r, w1) =>
    if fopen_ok e (log w) "a" then
      (r = SUCCESS ∧ w1 = closed (wrote w0 (ringValues g))) ∨
      (r = FAILURE ∧
       ∃ k v, ringValues g !! k = Some v ∧
              w1 = closed (failed (wrote w0 (take k (ringValues g))) v))
    else r = FAILURE ∧ w1 = refused w "a"
  | (Fault f, w1) => False
  end.
Proof.
  intros Hg. pose proof (generateLastOutput_any e g w Hg) as Hcases.
  cbn zeta in *. destruct (fopen_ok e (log w) "a").
  - destruct Hcases as [->|(k & v & Hk & ->)].
    + by left.
    + right. split; [done|]. by exists k, v.
  - by rewrite Hcases.
Qed.

Lemma last_report_on_any_sink_witness :
  wf initial ∧
  let w0 := opened fresh "a" LAST_HEADER
              (fprintf_ok healthy (log fresh ++ [Fopen "a" true])
                 LAST_HEADER OUTPUT_COUNT) in
  match generateLastOutput healthy initial fresh with
  | (Ok r, w1) =>
    if fopen_ok healthy (log fresh) "a" then
      (r = SUCCESS ∧ w1 = closed (wrote w0 (ringValues initial))) ∨
      (r = FAILURE ∧
       ∃ k v, ringValues initial !! k = Some v ∧
              w1 = closed (failed (wrote w0 (take k (ringValues initial))) v))
    else r = FAILURE ∧ w1 = refused fresh "a"
  | (Fault f, w1) => False
  end.
Proof.
  split; [exact wf_initial|].
  apply (last_report_on_any_sink healthy initial fresh wf_initial).
Defined.

(** X8: on a healthy sink [generateSortedOutput] returns [SUCCESS] exactly
    when [start + count], the end of the rounds of its loop, is within the
    table; otherwise it reads [valueCount[4096]]. *)
Theorem sorted_report_leaves_table (g : globals) (max : Z) (w : world) :
  wf g → 0 ≤ max ≤ MAX_VALUE →
  ∃ start count,
    getCount g max = Ok count ∧ getStart g max = Ok start ∧
    (start + count ≤ VALUE_ARRAY_SIZE ∧
     (generateSortedOutput healthy g max w).1 = Ok SUCCESS ∨
     VALUE_ARRAY_SIZE < start + count ∧
     (generateSortedOutput healthy g max w).1
     = Fault (OutOfBounds VALUE_ARRAY_SIZE)).
Proof.
  intros Hg Hmax.
  destruct (generateSortedOutput_healthy_cases g max w Hg Hmax)
    as (start & count & Hcount & Hstart & Hcases).
  exists start, count. split; [done|]. split; [done|].
  cbn zeta in Hcases.
  destruct Hcases as [[? ->]|[? ->]]; [by left | by right].
Qed.

Lemma sorted_report_leaves_table_witness :
  wf initial ∧ 0 ≤ 0 ≤ MAX_VALUE ∧
  ∃ start count,
    getCount initial 0 = Ok count ∧ getStart initial 0 = Ok start ∧
    (start + count ≤ VALUE_ARRAY_SIZE ∧
     (generateSortedOutput healthy initial 0 fresh).1 = Ok SUCCESS ∨
     VALUE_ARRAY_SIZE < start + count ∧
     (generateSortedOutput healthy initial 0 fresh).1
     = Fault (OutOfBounds VALUE_ARRAY_SIZE)).
Proof.
  assert (H : 0 ≤ 0 ≤ MAX_VALUE) by (unfold MAX_VALUE; lia).
  split; [exact wf_initial|]. split; [exact H|].
  apply (sorted_report_leaves_table initial 0 fresh wf_initial H).
Defined.


(** ** The discipline of the sink *)








(** ** A whole run on a healthy sink *)

(** The lines of the recency report are the header and the ring. *)
Lemma lastLines_ring (g : globals) :
  wf g → lastLines g = (LAST_HEADER, OUTPUT_COUNT) :: value_lines (ringValues g).
Proof.
  intros Hg. unfold lastLines.
  rewrite (generateLastOutput_healthy g (ringValues g) fresh).
  - done.
  - by rewrite ringValues_length.
  - by apply ringValues_range.
  - intros t v. by apply ringValues_lookup.
Qed.

(** X14: a whole run on a healthy sink.  For a file whose length is not 1
    modulo 3, when the rounds of the output loop end within the table,
    [main] returns [SUCCESS], prints nothing on the console, and the
    output file holds the sorted report followed by the recency report,
    the latter being the header and the last 32 values of the file (all
    of them when fewer) in order of arrival. *)
Theorem healthy_run (stale : stale_bytes) (argv0 : string) (bs : list byte)
    (w : world) :
  (length bs mod 3 ≠ 1)%nat →
  ∃ max g start count,
    parseInput stale (Some bs) initial = Ok (max, g) ∧
    getCount g max = Ok count ∧ getStart g max = Ok start ∧
    (start + count ≤ VALUE_ARRAY_SIZE →
     ∃ w1, main stale healthy (NUM_ARGS + 1) argv0 (Some bs) w
           = (Ok SUCCESS, w1) ∧
           file w1 = sortedLines g max ++ lastLines g ∧
           lastLines g
           = (LAST_HEADER, OUTPUT_COUNT)
             :: value_lines (drop (length (decode bs) - 32) (decode bs)) ∧
           stdout w1 = stdout w).
Proof.
  intros Hmod. pose proof (decode_range bs) as Hvs.
  destruct (ingest_wf (decode bs) initial wf_initial Hvs) as (g & Hin & Hg).
  assert (0 ≤ maxSeen 0 (decode bs) ≤ MAX_VALUE) as Hmax
    by (by apply maxSeen_range).
  assert (parseInput stale (Some bs) initial
          = Ok (maxSeen 0 (decode bs), g)) as Hparse
    by (by rewrite parseInput_decode, Hin).
  destruct (generateSortedOutput_healthy_cases g _ w Hg Hmax)
    as (start & count & Hcount & Hstart & Hcases).
  exists (maxSeen 0 (decode bs)), g, start, count.
  split; [done|]. split; [done|]. split; [done|]. intros Hfit.
  cbn zeta in Hcases. destruct Hcases as [[_ Hsorted]|[? _]]; [|lia].
  rewrite (main_unfold _ _ _ _ _ g _ Hparse) by lia. rewrite Hsorted.
  cbn [Z.ltb SUCCESS Z.compare].
  rewrite (generateLastOutput_healthy g (ringValues g)).
  - cbn [Z.ltb SUCCESS Z.compare]. eexists. split; [done|].
    rewrite (sortedLines_emitted g _ start count Hmax Hcount Hstart).
    rewrite (lastLines_ring g Hg), (ringValues_ingest _ _ Hin).
    unfold sortedValues. rewrite Hcount, Hstart. cbn.
    done.
  - by rewrite ringValues_length.
  - by apply ringValues_range.
  - intros t v. by apply ringValues_lookup.
Qed.

Lemma healthy_run_witness :
  (length [x00; x00; x01] mod 3 ≠ 1)%nat ∧
  ∃ max g start count,
    parseInput nostale (Some [x00; x00; x01]) initial = Ok (max, g) ∧
    getCount g max = Ok count ∧ getStart g max = Ok start ∧
    (start + count ≤ VALUE_ARRAY_SIZE →
     ∃ w1, main nostale healthy (NUM_ARGS + 1) "bin-parser"
             (Some [x00; x00; x01]) fresh
           = (Ok SUCCESS, w1) ∧
           file w1 = sortedLines g max ++ lastLines g ∧
           lastLines g
           = (LAST_HEADER, OUTPUT_COUNT)
             :: value_lines (drop (length (decode [x00; x00; x01]) - 32)
                               (decode [x00; x00; x01])) ∧
           stdout w1 = stdout fresh).
Proof.
  assert (H : (length [x00; x00; x01] mod 3 ≠ 1)%nat) by (cbn; lia).
  split; [exact H|].
  apply (healthy_run nostale "bin-parser" [x00; x00; x01] fresh H).
Defined.

(** ** The two scans, together *)

Lemma scanDown_exhausts (g : globals) (n : nat) (c0 i c : Z) :
  scanDown g n c0 = Ok (i, c) → c < OUTPUT_COUNT → i = -1.
Proof.
  revert c0. induction n as [|n IH]; intros c0; cbn [scanDown].
  - by intros [= <- <-].
  - destruct (Z.ltb_spec c0 OUTPUT_COUNT).
    + destruct (array_get (valueCount g) (Z.of_nat n)) as [x|]; [|done].
      cbn [mbind result_bind]. apply IH.
    + intros [= <- <-]. lia.
Qed.

Lemma scanDown_below (g : globals) (n : nat) (c0 i c : Z) :
  scanDown g n c0 = Ok (i, c) → -1 ≤ i < Z.of_nat n.
Proof.
  revert c0. induction n as [|n IH]; intros c0; cbn [scanDown].
  - intros [= <- <-]. lia.
  - destruct (Z.ltb_spec c0 OUTPUT_COUNT).
    + destruct (array_get (valueCount g) (Z.of_nat n)) as [x|]; [|done].
      cbn [mbind result_bind]. intros Hrec. apply IH in Hrec. lia.
    + intros [= <- <-]. lia.
Qed.

Lemma scanDown_first (g : globals) (n : nat) (i c : Z) :
  scanDown g (S n) 0 = Ok (i, c) → i < Z.of_nat n.
Proof.
  cbn [scanDown]. replace (0 <? OUTPUT_COUNT) with true by done.
  destruct (array_get (valueCount g) (Z.of_nat n)) as [x|]; [|done].
  cbn [mbind result_bind]. intros Hrec. apply scanDown_below in Hrec. lia.
Qed.

Lemma scans_run (g : globals) (max start count : Z) :
  0 ≤ max ≤ MAX_VALUE →
  getCount g max = Ok count → getStart g max = Ok start →
  scanDown g (Z.to_nat (max + 1)) 0 = Ok (start - 1, count).
Proof.
  intros Hmax. unfold getCount, getStart, assert.
  replace ((max <=? MAX_VALUE) && (max >=? 0)) with true by lia.
  cbn [mbind result_bind].
  destruct (scanDown g (Z.to_nat (max + 1)) 0) as [[i c]|]; [|done].
  cbn [mbind result_bind]. intros [= <-] [= <-]. do 2 f_equal. lia.
Qed.

(** X7: [getCount] and [getStart] run the same scan and raise no fault.
    The start is at most [max]; the count is the sum of the buckets from
    the start to [max] and at most 286; a count below 32 means the scan
    reached bucket 0; a count of 32 or more means the bucket at the start
    is not empty and what the output loop takes off it, [count - 32],
    leaves at least one copy. *)
Theorem scans_agree (g : globals) (max : Z) :
  wf g → 0 ≤ max ≤ MAX_VALUE →
  ∃ start count,
    getCount g max = Ok count ∧ getStart g max = Ok start ∧
    0 ≤ start ≤ max ∧ 0 ≤ count ≤ 286 ∧
    count = sumZ (take (Z.to_nat (max + 1 - start))
                    (drop (Z.to_nat start) (valueCount g))) ∧
    (count < OUTPUT_COUNT → start = 0) ∧
    (OUTPUT_COUNT ≤ count →
     ∃ x, valueCount g !! Z.to_nat start = Some x ∧
          1 ≤ x - (count - OUTPUT_COUNT)).
Proof.
  intros Hg Hmax.
  destruct (scan_results g max Hg Hmax)
    as (start & count & Hcount & Hstart & Hs & Hc & Hsum & Hlast).
  pose proof (scans_run g max start count Hmax Hcount Hstart) as Hrun.
  exists start, count. split; [done|]. split; [done|].
  assert (start ≤ max) as Hsm.
  { replace (Z.to_nat (max + 1)) with (S (Z.to_nat max)) in Hrun by lia.
    apply scanDown_first in Hrun. lia. }
  assert (count < OUTPUT_COUNT → start = 0) as Hex.
  { intros Hlt. apply (scanDown_exhausts _ _ _ _ _ Hrun) in Hlt. lia. }
  assert (OUTPUT_COUNT ≤ count →
          ∃ x, valueCount g !! Z.to_nat start = Some x ∧
               1 ≤ x - (count - OUTPUT_COUNT)) as Hx.
  { intros Hge. destruct Hlast as [|(x & Hx & Hlt)]; [lia|].
    exists x. split; [done | lia]. }
  split; [lia|]. split; [|split; [|done]].
  - split; [done|]. unfold OUTPUT_COUNT in *.
    destruct (Z.lt_ge_cases count 32) as [|Hge]; [lia|].
    destruct (Hx Hge) as (x & Hlook & _).
    destruct Hlast as [|(x' & Hx' & Hlt)]; [lia|].
    rewrite Hlook in Hx'. injection Hx' as <-.
    pose proof (wf_counts g Hg) as Hcs. rewrite Forall_forall in Hcs.
    pose proof (Hcs x (list_elem_of_lookup_2 _ _ _ Hlook)). lia.
  - rewrite <- (take_drop (Z.to_nat (max + 1 - start))
                  (drop (Z.to_nat start) (valueCount g))) in Hsum.
    rewrite sumZ_app, drop_drop in Hsum.
    replace (Z.to_nat start + Z.to_nat (max + 1 - start))%nat
      with (Z.to_nat (max + 1)) in Hsum by lia.
    lia.
Qed.

Lemma scans_agree_witness :
  wf initial ∧ 0 ≤ 0 ≤ MAX_VALUE ∧
  ∃ start count,
    getCount initial 0 = Ok count ∧ getStart initial 0 = Ok start ∧
    0 ≤ start ≤ 0 ∧ 0 ≤ count ≤ 286 ∧
    count = sumZ (take (Z.to_nat (0 + 1 - start))
                    (drop (Z.to_nat start) (valueCount initial))) ∧
    (count < OUTPUT_COUNT → start = 0) ∧
    (OUTPUT_COUNT ≤ count →
     ∃ x, valueCount initial !! Z.to_nat start = Some x ∧
          1 ≤ x - (count - OUTPUT_COUNT)).
Proof.
  assert (H : 0 ≤ 0 ≤ MAX_VALUE) by (unfold MAX_VALUE; lia).
  split; [exact wf_initial|]. split; [exact H|].
  apply (scans_agree initial 0 wf_initial H).
Defined.










